(** * Pose-estimation utilities: [visualize] and [keep_aspect_ratio_resizer]

    A shallow embedding of [src/utils/utils.py].

    - Python's [float] is IEEE 754 binary64; it is modelled with the Standard
      Library's executable specification [SpecFloat] at precision 53, so the
      rounding of [target_size / height] and of [width * scale] is the one
      the interpreter performs.
    - NumPy arrays live in a heap indexed by references, so that drawing in
      place and allocating a new buffer are told apart.
    - Every call into OpenCV is recorded in a trace, in program order.
    - The module-level dictionary [KEYPOINT_EDGE_INDS_TO_COLOR] is a global
      variable of the interpreter state; the functions read it from there. *)

From Stdlib Require Import ZArith List Bool Lia QArith Qpower Lqa.
From Stdlib Require Import Floats.SpecFloat.
From stdpp Require Import base option list gmap.

Local Open Scope Z_scope.

(** ** Python floats (binary64) *)

Module PyFloat.

Definition prec : Z := 53.
Definition emax : Z := 1024.

(** [float(n)] for a Python int: the nearest binary64 value, ties to even. *)
Definition float_of_int (n : Z) : spec_float :=
  binary_normalize prec emax n 0 false.

(** A Python int as an unnormalised operand (mantissa [|n|], exponent 0). *)
Definition raw_int (n : Z) : spec_float :=
  match n with
  | Z0 => S754_zero false
  | Zpos p => S754_finite false p 0
  | Zneg p => S754_finite true p 0
  end.

(** [x * y] on floats. *)
Definition fmul (x y : spec_float) : spec_float := SFmul prec emax x y.

(** The integer [math.ceil] returns for a finite nonzero float. *)
Definition ceil_finite (s : bool) (m : positive) (e : Z) : Z :=
  let v := if s then Z.neg m else Z.pos m in
  if 0 <=? e then v * 2 ^ e else - ((- v) / 2 ^ (- e)).

(** Comparisons [x < y], [x <= y], [x == y]; each is false when an operand
    is NaN. *)
Definition flt (x y : spec_float) : bool := SFltb x y.
Definition fle (x y : spec_float) : bool := SFleb x y.
Definition feq (x y : spec_float) : bool := SFeqb x y.

(** The rational value of a finite positive float. *)
Definition F2Q (m : positive) (e : Z) : Q := (inject_Z (Z.pos m) * 2 ^ e)%Q.

(** A mantissa of exactly 53 bits. *)
Definition normal53 (m : positive) : Prop := 2 ^ 52 <= Z.pos m < 2 ^ 53.

(** [1 + 2^-52]: one rounding never enlarges a normal value by more. *)
Definition rnd_up : Q := 4503599627370497 # 4503599627370496.

End PyFloat.

Import PyFloat.

(** ** Exceptions and results *)

Inductive exn : Type :=
| ZeroDivisionError
| OverflowError
| ValueError
| IndexError
| cv2_error
| UnboundReference.

Inductive res (A : Type) : Type :=
| Ok (a : A)
| Raise (e : exn).
Arguments Ok {A} a.
Arguments Raise {A} e.

#[global] Instance res_ret : MRet res := fun A a => Ok a.
#[global] Instance res_bind : MBind res := fun A B f r =>
  match r with
  | Ok a => f a
  | Raise e => Raise e
  end.

(** [a / b] on Python ints: the exact quotient rounded once to binary64. *)
Definition int_truediv (a b : Z) : res spec_float :=
  if b =? 0 then Raise ZeroDivisionError
  else match SFdiv prec emax (raw_int a) (raw_int b) with
       | S754_infinity _ => Raise OverflowError
       | q => Ok q
       end.

(** [n * x] for an int [n] and a float [x]: [n] is converted first. *)
Definition int_mul_float (n : Z) (x : spec_float) : res spec_float :=
  match float_of_int n with
  | S754_infinity _ => Raise OverflowError
  | f => Ok (fmul f x)
  end.

(** [math.ceil(x)]. *)
Definition math_ceil (x : spec_float) : res Z :=
  match x with
  | S754_zero _ => Ok 0
  | S754_finite s m e => Ok (ceil_finite s m e)
  | S754_infinity _ => Raise OverflowError
  | S754_nan => Raise ValueError
  end.

(** [l[i]] on a Python sequence: negative indices count from the end. *)
Definition py_index {A : Type} (l : list A) (i : Z) : res A :=
  let n := Z.of_nat (length l) in
  let j := if i <? 0 then i + n else i in
  if (0 <=? j) && (j <? n) then
    match l !! Z.to_nat j with
    | Some x => Ok x
    | None => Raise IndexError
    end
  else Raise IndexError.

(** [range(n)]. *)
Definition py_range (n : nat) : list Z := Z.of_nat <$> seq 0 n.

(** ** Arrays, references and the interpreter state *)

(** An image array of shape [(rows, cols, channels)]; [item a r c k] is
    [a[r, c, k]]. *)
Record ndarray : Type := {
  rows : Z;
  cols : Z;
  channels : Z;
  item : Z -> Z -> Z -> Z
}.

Definition loc : Type := positive.
Definition point : Type := (Z * Z)%type.
Definition color : Type := (Z * Z * Z)%type.

(** Calls into OpenCV, with their arguments. *)
Inductive cv2_call : Type :=
| Circle (img : loc) (center : point) (radius : Z) (col : color) (thickness : Z)
| Line (img : loc) (pt1 pt2 : point) (col : color) (thickness : Z)
| Resize (src : loc) (dsize : Z * Z) (dst : loc)
| CopyMakeBorder (src : loc) (top bottom left right : Z) (dst : loc).

Record world : Type := {
  heap : gmap loc ndarray;
  trace : list cv2_call;
  edge_colors : list ((Z * Z) * color)
}.

(** Computations: state passing, with the state kept when an exception is
    raised. *)
Definition M (A : Type) : Type := world -> res A * world.

#[global] Instance M_ret : MRet M := fun A a w => (Ok a, w).
#[global] Instance M_bind : MBind M := fun A B f m w =>
  match m w with
  | (Ok a, w') => f a w'
  | (Raise e, w') => (Raise e, w')
  end.

Definition lift {A : Type} (r : res A) : M A := fun w => (r, w).

Definition read (l : loc) : M ndarray := fun w =>
  match heap w !! l with
  | Some a => (Ok a, w)
  | None => (Raise UnboundReference, w)
  end.

Definition alloc (a : ndarray) : M loc := fun w =>
  let l := fresh (dom (heap w)) in
  (Ok l, {| heap := <[l := a]> (heap w); trace := trace w; edge_colors := edge_colors w |}).

Definition write (l : loc) (a : ndarray) : M unit := fun w =>
  (Ok tt, {| heap := <[l := a]> (heap w); trace := trace w; edge_colors := edge_colors w |}).

Definition log (c : cv2_call) : M unit := fun w =>
  (Ok tt, {| heap := heap w; trace := trace w ++ [c]; edge_colors := edge_colors w |}).

Definition get_edge_colors : M (list ((Z * Z) * color)) := fun w => (Ok (edge_colors w), w).

(** [for x in l: body(x)]. *)
Fixpoint for_each {A : Type} (body : A -> M unit) (l : list A) : M unit :=
  match l with
  | [] => mret tt
  | x :: l' => body x ≫= fun _ => for_each body l'
  end.

(** ** OpenCV *)

(** The pixel values OpenCV computes: interpolation and rasterisation are
    the library's, and are left open. *)
Class Cv2 : Type := {
  resize_item : ndarray -> Z -> Z -> Z -> Z -> Z -> Z;
  circle_item : ndarray -> point -> Z -> color -> Z -> Z -> Z -> Z -> Z;
  line_item : ndarray -> point -> point -> color -> Z -> Z -> Z -> Z -> Z
}.

(** An instance to run the functions on: nearest-neighbour resampling, and
    drawing that paints the end points. *)
Definition sample_cv2 : Cv2 := {|
  resize_item := fun a w h r c k => item a (r * rows a / h) (c * cols a / w) k;
  circle_item := fun a p _ col _ r c k =>
    if (r =? snd p) && (c =? fst p) then fst (fst col) else item a r c k;
  line_item := fun a p q col _ r c k =>
    if ((r =? snd p) && (c =? fst p)) || ((r =? snd q) && (c =? fst q))
    then fst (fst col) else item a r c k
|}.

(** ** Detections *)

(** Modelled from the spec: the [data] module that declares [Person] is not
    part of the sources.  A keypoint is an integer pixel coordinate with a
    confidence score. *)
Module KeyPoint.
Record t : Type := {
  coordinate : point;
  score : spec_float
}.
End KeyPoint.

(** Modelled from the spec: a person is a sequence of keypoints, a bounding
    box (two corner points) and an overall confidence score. *)
Module Person.
Record t : Type := {
  keypoints : list KeyPoint.t;
  bounding_box : point * point;
  score : spec_float
}.
End Person.

(** Map edges to a RGB color: the dictionary literal, in insertion order. *)
Definition KEYPOINT_EDGE_INDS_TO_COLOR : list ((Z * Z) * color) :=
  [ ((0, 1), (147, 20, 255));
    ((0, 2), (255, 255, 0));
    ((1, 3), (147, 20, 255));
    ((2, 4), (255, 255, 0));
    ((0, 5), (147, 20, 255));
    ((0, 6), (255, 255, 0));
    ((5, 7), (147, 20, 255));
    ((7, 9), (147, 20, 255));
    ((6, 8), (255, 255, 0));
    ((8, 10), (255, 255, 0));
    ((5, 6), (0, 255, 255));
    ((5, 11), (147, 20, 255));
    ((6, 12), (255, 255, 0));
    ((11, 12), (0, 255, 255));
    ((11, 13), (147, 20, 255));
    ((13, 15), (147, 20, 255));
    ((12, 14), (255, 255, 0));
    ((14, 16), (255, 255, 0)) ].

(** The interpreter state once the module has been imported. *)
Definition module_loaded (w : world) : Prop :=
  edge_colors w = KEYPOINT_EDGE_INDS_TO_COLOR.

(** Default arguments of [visualize]: [(0, 255, 0)], [0.05] and [0.1]. *)
Definition default_keypoint_color : color := (0, 255, 0).
Definition default_keypoint_threshold : spec_float :=
  S754_finite false 7205759403792794 (-57).
Definition default_instance_threshold : spec_float :=
  S754_finite false 7205759403792794 (-56).

Section Utils.

Context {cv : Cv2}.

(** [cv2.resize(src, (width, height))]: a new array of the requested size. *)
Definition resized (a : ndarray) (width height : Z) : ndarray :=
  {| rows := height; cols := width; channels := channels a;
     item := resize_item a width height |}.

Definition cv2_resize (src : loc) (dsize : Z * Z) : M loc :=
  a ← read src;
  if (0 <? rows a) && (0 <? cols a) && (0 <? fst dsize) && (0 <? snd dsize) then
    dst ← alloc (resized a (fst dsize) (snd dsize));
    _ ← log (Resize src dsize dst);
    mret dst
  else lift (Raise cv2_error).

(** [cv2.copyMakeBorder(src, top, bottom, left, right, cv2.BORDER_CONSTANT)]
    with the default border value, which is zero in every channel. *)
Definition bordered (a : ndarray) (top bottom left right : Z) : ndarray :=
  {| rows := top + rows a + bottom; cols := left + cols a + right;
     channels := channels a;
     item := fun r c k =>
       if (top <=? r) && (r <? top + rows a) && (left <=? c) && (c <? left + cols a)
       then item a (r - top) (c - left) k else 0 |}.

Definition cv2_copyMakeBorder (src : loc) (top bottom left right : Z) : M loc :=
  a ← read src;
  if (0 <=? top) && (0 <=? bottom) && (0 <=? left) && (0 <=? right) then
    dst ← alloc (bordered a top bottom left right);
    _ ← log (CopyMakeBorder src top bottom left right dst);
    mret dst
  else lift (Raise cv2_error).

(** [cv2.circle(img, center, radius, color, thickness)]: draws in place. *)
Definition with_circle (a : ndarray) (center : point) (radius : Z) (col : color)
    (thickness : Z) : ndarray :=
  {| rows := rows a; cols := cols a; channels := channels a;
     item := circle_item a center radius col thickness |}.

Definition cv2_circle (img : loc) (center : point) (radius : Z) (col : color)
    (thickness : Z) : M unit :=
  a ← read img;
  _ ← write img (with_circle a center radius col thickness);
  log (Circle img center radius col thickness).

(** [cv2.line(img, pt1, pt2, color, thickness)]: draws in place. *)
Definition with_line (a : ndarray) (pt1 pt2 : point) (col : color) (thickness : Z)
    : ndarray :=
  {| rows := rows a; cols := cols a; channels := channels a;
     item := line_item a pt1 pt2 col thickness |}.

Definition cv2_line (img : loc) (pt1 pt2 : point) (col : color) (thickness : Z) : M unit :=
  a ← read img;
  _ ← write img (with_line a pt1 pt2 col thickness);
  log (Line img pt1 pt2 col thickness).

(** *** [visualize] *)

(** Lines 56-58: draw the landmark of index [i]. *)
Definition draw_landmark (image : loc) (keypoints : list KeyPoint.t)
    (keypoint_color : color) (keypoint_threshold : spec_float) (i : Z) : M unit :=
  kp ← lift (py_index keypoints i);
  if fle keypoint_threshold (KeyPoint.score kp) then
    cv2_circle image (KeyPoint.coordinate kp) 2 keypoint_color 4
  else mret tt.

(** Lines 61-72: draw one edge; [and] evaluates its right operand only when
    the left one holds. *)
Definition draw_edge (image : loc) (keypoints : list KeyPoint.t)
    (keypoint_threshold : spec_float) (entry : (Z * Z) * color) : M unit :=
  let edge_pair := fst entry in
  let col := snd entry in
  k0 ← lift (py_index keypoints (fst edge_pair));
  if flt keypoint_threshold (KeyPoint.score k0) then
    k1 ← lift (py_index keypoints (snd edge_pair));
    if flt keypoint_threshold (KeyPoint.score k1) then
      cv2_line image (KeyPoint.coordinate k0) (KeyPoint.coordinate k1) col 2
    else mret tt
  else mret tt.

(** Lines 49-72: the body of the loop over persons. *)
Definition draw_person (image : loc) (keypoint_color : color)
    (keypoint_threshold instance_threshold : spec_float) (person : Person.t) : M unit :=
  if flt (Person.score person) instance_threshold then mret tt
  else
    let keypoints := Person.keypoints person in
    _ ← for_each (draw_landmark image keypoints keypoint_color keypoint_threshold)
          (py_range (length keypoints));
    table ← get_edge_colors;
    for_each (draw_edge image keypoints keypoint_threshold) table.

Definition visualize (image : loc) (list_persons : list Person.t)
    (keypoint_color : color) (keypoint_threshold instance_threshold : spec_float) : M loc :=
  _ ← for_each (draw_person image keypoint_color keypoint_threshold instance_threshold)
        list_persons;
  mret image.

(** *** [keep_aspect_ratio_resizer] *)

Definition keep_aspect_ratio_resizer (image : loc) (target_size : Z)
    : M (loc * (Z * Z)) :=
  a ← read image;
  let height := rows a in
  let width := cols a in
  '(image, (target_height, target_width)) ←
    (if width <? height then
       scale ← lift (int_truediv target_size height);
       let target_height := target_size in
       x ← lift (int_mul_float width scale);
       scaled_width ← lift (math_ceil x);
       image ← cv2_resize image (scaled_width, target_height);
       q ← lift (int_truediv scaled_width 32);
       c ← lift (math_ceil q);
       let target_width := c * 32 in
       mret (image, (target_height, target_width))
     else
       scale ← lift (int_truediv target_size width);
       let target_width := target_size in
       x ← lift (int_mul_float height scale);
       scaled_height ← lift (math_ceil x);
       image ← cv2_resize image (target_width, scaled_height);
       q ← lift (int_truediv scaled_height 32);
       c ← lift (math_ceil q);
       let target_height := c * 32 in
       mret (image, (target_height, target_width)));
  let padding_top := 0 in
  let padding_left := 0 in
  b ← read image;
  let padding_bottom := target_height - rows b in
  let padding_right := target_width - cols b in
  image ← cv2_copyMakeBorder image padding_top padding_bottom padding_left padding_right;
  mret (image, (target_height, target_width)).

End Utils.

(** ** Derived quantities the statements are written with *)

(** [math.ceil(side * float(target / longer))], the expression of lines 96-98
    and 102-104. *)
Definition scaled_side (side target longer : Z) : res Z :=
  scale ← int_truediv target longer;
  x ← int_mul_float side scale;
  math_ceil x.

(** [int(math.ceil(n / 32) * 32)], the expression of lines 100 and 106. *)
Definition pad_to_32 (n : Z) : res Z :=
  q ← int_truediv n 32;
  c ← math_ceil q;
  mret (c * 32).

(** The ceiling of the exact quotient [a / b]. *)
Definition exact_ceil_div (a b : Z) : Z := - ((- a) / b).

(** [n] rounded up to a multiple of 32, in integer arithmetic. *)
Definition round_up_32 (n : Z) : Z := (n + 31) / 32 * 32.

Definition multiple_of_32 (n : Z) : Prop := (32 | n).

(** [m] is the smallest multiple of 32 that is at least [n]. *)
Definition smallest_multiple_of_32_ge (n m : Z) : Prop :=
  multiple_of_32 m /\ n <= m /\ forall k, multiple_of_32 k -> n <= k -> m <= k.

(** Image sides and target sizes are C [int]s in OpenCV. *)
Definition int_sized (n : Z) : Prop := 0 < n < 2 ^ 31.

(** What the spec says is drawn for one keypoint: a circle when its score
    reaches the threshold. *)
Definition landmark_calls (image : loc) (keypoint_color : color)
    (keypoint_threshold : spec_float) (kp : KeyPoint.t) : list cv2_call :=
  if fle keypoint_threshold (KeyPoint.score kp)
  then [Circle image (KeyPoint.coordinate kp) 2 keypoint_color 4] else [].

(** What the spec says is drawn for one edge between keypoints [k0] and
    [k1]: a line when both scores exceed the threshold. *)
Definition edge_calls (image : loc) (keypoint_threshold : spec_float)
    (k0 k1 : KeyPoint.t) (col : color) : list cv2_call :=
  if flt keypoint_threshold (KeyPoint.score k0) && flt keypoint_threshold (KeyPoint.score k1)
  then [Line image (KeyPoint.coordinate k0) (KeyPoint.coordinate k1) col 2] else [].

(** The edge calls of a whole table, for keypoints that cover its indices. *)
Definition table_calls (image : loc) (keypoint_threshold : spec_float)
    (keypoints : list KeyPoint.t) (table : list ((Z * Z) * color)) : list cv2_call :=
  flat_map (fun entry =>
    match keypoints !! Z.to_nat (fst (fst entry)), keypoints !! Z.to_nat (snd (fst entry)) with
    | Some k0, Some k1 => edge_calls image keypoint_threshold k0 k1 (snd entry)
    | _, _ => []
    end) table.

(** Everything drawn for one person that passes the instance threshold. *)
Definition person_calls (image : loc) (keypoint_color : color)
    (keypoint_threshold : spec_float) (person : Person.t) : list cv2_call :=
  flat_map (landmark_calls image keypoint_color keypoint_threshold) (Person.keypoints person)
  ++ table_calls image keypoint_threshold (Person.keypoints person) KEYPOINT_EDGE_INDS_TO_COLOR.

(** ** The effect of a list of drawing calls *)

Section Painting.

Context {cv : Cv2}.

(** What one drawing call does to the heap. *)
Definition paint (h : gmap loc ndarray) (c : cv2_call) : gmap loc ndarray :=
  match c with
  | Circle img center radius col thickness =>
      match h !! img with
      | Some a => <[img := with_circle a center radius col thickness]> h
      | None => h
      end
  | Line img pt1 pt2 col thickness =>
      match h !! img with
      | Some a => <[img := with_line a pt1 pt2 col thickness]> h
      | None => h
      end
  | _ => h
  end.

(** The state after the calls [cs] have been made, in order. *)
Definition after_calls (cs : list cv2_call) (w : world) : world :=
  {| heap := foldl paint (heap w) cs; trace := trace w ++ cs;
     edge_colors := edge_colors w |}.

End Painting.

(** The reference [l] designates an array. *)
Definition bound (l : loc) (w : world) : Prop := is_Some (heap w !! l).

(** ** Observing a run *)

(** The pair of sizes a run of the resizer returned. *)
Definition returned_dims (run : res (loc * (Z * Z)) * world) : option (Z * Z) :=
  match fst run with
  | Ok (_, dims) => Some dims
  | Raise _ => None
  end.

(** The shape [(rows, cols)] of the array a run of the resizer returned. *)
Definition returned_shape (run : res (loc * (Z * Z)) * world) : option (Z * Z) :=
  match fst run with
  | Ok (o, _) => (fun a => (rows a, cols a)) <$> heap (snd run) !! o
  | Raise _ => None
  end.

(** ** Sample inputs *)

Definition sample_image (h w : Z) : ndarray :=
  {| rows := h; cols := w; channels := 3; item := fun r c k => (r + c + k) mod 256 |}.

Definition sample_world (h w : Z) : world :=
  {| heap := {[ 1%positive := sample_image h w ]}; trace := [];
     edge_colors := KEYPOINT_EDGE_INDS_TO_COLOR |}.

Definition sample_keypoint (s : spec_float) (i : nat) : KeyPoint.t :=
  {| KeyPoint.coordinate := (Z.of_nat i, 2 * Z.of_nat i); KeyPoint.score := s |}.

Definition sample_person (kp_score s : spec_float) : Person.t :=
  {| Person.keypoints := sample_keypoint kp_score <$> seq 0 17;
     Person.bounding_box := ((0, 0), (16, 32));
     Person.score := s |}.

(** ** Frame conditions *)

(** Whatever a computation does, the state it leaves is related by [R] to
    the state it started from, whether it returns or raises. *)
Definition respects (R : relation world) {A : Type} (m : M A) : Prop :=
  forall w, R w (snd (m w)).

Definition same_table : relation world :=
  fun w w' => edge_colors w' = edge_colors w.

Definition heap_grows : relation world :=
  fun w w' => heap w ⊆ heap w'.

(** A computation that leaves the global edge table as it found it. *)
Definition keeps_table {A : Type} (m : M A) : Prop := respects same_table m.

(** A computation that only adds arrays to the heap: every array that was
    there is still there, unchanged. *)
Definition only_allocates {A : Type} (m : M A) : Prop := respects heap_grows m.

(** ** Well-formed detections and tables *)

Definition has_17_keypoints (person : Person.t) : Prop :=
  length (Person.keypoints person) = 17%nat.

(** Both indices of a table entry are valid for [n] keypoints. *)
Definition edge_in_range (n : Z) (entry : (Z * Z) * color) : Prop :=
  0 <= fst (fst entry) < n /\ 0 <= snd (fst entry) < n.

(** The calls [visualize] makes for one person of the list. *)
Definition visualize_calls (image : loc) (keypoint_color : color)
    (keypoint_threshold instance_threshold : spec_float) (person : Person.t)
    : list cv2_call :=
  if flt (Person.score person) instance_threshold then []
  else person_calls image keypoint_color keypoint_threshold person.

(** ** Further quantities *)

(** [1 - 2^-52]: one rounding never shrinks a normal value by more. *)
Definition rnd_down : Q := 4503599627370495 # 4503599627370496.

(** Whether drawing one edge can index [keypoints]: the first index is
    always read, the second only when the first score exceeds the
    threshold. *)
Definition edge_indexable (keypoints : list KeyPoint.t) (keypoint_threshold : spec_float)
    (entry : (Z * Z) * color) : bool :=
  match keypoints !! Z.to_nat (fst (fst entry)) with
  | Some k0 =>
      if flt keypoint_threshold (KeyPoint.score k0)
      then match keypoints !! Z.to_nat (snd (fst entry)) with
           | Some _ => true
           | None => false
           end
      else true
  | None => false
  end.

(** A person [visualize] gets through: skipped, or with keypoints for every
    index the edge loop reads. *)
Definition person_drawable (keypoint_threshold instance_threshold : spec_float)
    (person : Person.t) : bool :=
  flt (Person.score person) instance_threshold
  || forallb (edge_indexable (Person.keypoints person) keypoint_threshold)
       KEYPOINT_EDGE_INDS_TO_COLOR.

(** A drawing call on the array [image]. *)
Definition drawing_on (image : loc) (c : cv2_call) : Prop :=
  match c with
  | Circle img _ _ _ _ => img = image
  | Line img _ _ _ _ => img = image
  | _ => False
  end.

Definition shape (a : ndarray) : Z * Z * Z := (rows a, cols a, channels a).

(** The state [w'] differs from [w] by drawing on [image] only: every other
    reference is as it was, [image] has kept its shape, and the trace has
    grown by drawing calls on [image]. *)
Definition draws_only_on (image : loc) : relation world := fun w w' =>
  (forall l, l <> image -> heap w' !! l = heap w !! l)
  /\ shape <$> heap w' !! image = shape <$> heap w !! image
  /\ exists cs, trace w' = trace w ++ cs /\ Forall (drawing_on image) cs.

(** A person with [n] keypoints only. *)
Definition sample_short_person (n : nat) (kp_score s : spec_float) : Person.t :=
  {| Person.keypoints := sample_keypoint kp_score <$> seq 0 n;
     Person.bounding_box := ((0, 0), (16, 32));
     Person.score := s |}.

Arguments int_truediv : simpl never.
Arguments int_mul_float : simpl never.
Arguments math_ceil : simpl never.

(** ** Facts about binary64 arithmetic *)

Section FloatFacts.

Lemma digits2_pos_bounds (p : positive) :
  2 ^ (Z.pos (digits2_pos p) - 1) <= Z.pos p < 2 ^ Z.pos (digits2_pos p).
Proof.
  induction p as [p IH | p IH |]; cbn [digits2_pos].
  - rewrite Pos2Z.inj_succ, (Pos2Z.inj_xI p).
    replace (Z.succ (Z.pos (digits2_pos p)) - 1) with (Z.succ (Z.pos (digits2_pos p) - 1)) by lia.
    rewrite !Z.pow_succ_r by lia. lia.
  - rewrite Pos2Z.inj_succ, (Pos2Z.inj_xO p).
    replace (Z.succ (Z.pos (digits2_pos p)) - 1) with (Z.succ (Z.pos (digits2_pos p) - 1)) by lia.
    rewrite !Z.pow_succ_r by lia. lia.
  - cbn. lia.
Qed.

Lemma digits2_pos_unique (p : positive) (d : Z) :
  2 ^ (d - 1) <= Z.pos p < 2 ^ d -> Z.pos (digits2_pos p) = d.
Proof.
  intros [Hlo Hhi]. pose proof (digits2_pos_bounds p) as [Lo Hi].
  assert (0 < d) as Hd.
  { destruct (Z.lt_trichotomy d 0) as [Hn | [-> | Hp]]; [|cbn in Hhi; lia|done].
    rewrite Z.pow_neg_r in Hhi by done. lia. }
  destruct (Z.lt_trichotomy (Z.pos (digits2_pos p)) d) as [Hlt | [-> | Hgt]]; [|done|].
  - assert (2 ^ Z.pos (digits2_pos p) <= 2 ^ (d - 1)) by (apply Z.pow_le_mono_r; lia). lia.
  - assert (2 ^ d <= 2 ^ (Z.pos (digits2_pos p) - 1)) by (apply Z.pow_le_mono_r; lia). lia.
Qed.

Lemma shr_1_m (mrs : shr_record) :
  0 <= shr_m mrs -> shr_m (shr_1 mrs) = shr_m mrs / 2.
Proof.
  destruct mrs as [m r s]; cbn [shr_m]; intros Hm.
  destruct m as [| [p | p |] |]; cbn [shr_1 shr_m].
  - reflexivity.
  - apply Z.div_unique with (r := 1); [lia|]. rewrite (Pos2Z.inj_xI p). lia.
  - apply Z.div_unique with (r := 0); [lia|]. rewrite (Pos2Z.inj_xO p). lia.
  - reflexivity.
  - lia.
Qed.

Lemma iter_pos_shr_1_m (p : positive) (mrs : shr_record) :
  0 <= shr_m mrs -> shr_m (SpecFloat.iter_pos shr_1 p mrs) = shr_m mrs / 2 ^ Z.pos p.
Proof.
  revert mrs. induction p as [p IH | p IH |]; intros mrs Hm; cbn [SpecFloat.iter_pos].
  - assert (0 <= shr_m (shr_1 mrs)) as H1 by (rewrite shr_1_m by done; apply Z.div_pos; lia).
    assert (0 <= shr_m (SpecFloat.iter_pos shr_1 p (shr_1 mrs))) as H2
      by (rewrite IH by done; apply Z.div_pos; lia).
    rewrite IH, IH, shr_1_m by done.
    rewrite !Z.div_div by lia. f_equal.
    rewrite (Pos2Z.inj_xI p), Z.pow_add_r, Z.pow_mul_r by lia. change (2 ^ 2) with 4. 
    rewrite Z.pow_1_r. replace 4 with (2*2) by lia. rewrite Z.pow_mul_l. lia.
  - assert (0 <= shr_m (SpecFloat.iter_pos shr_1 p mrs)) as H2
      by (rewrite IH by done; apply Z.div_pos; lia).
    rewrite IH, IH by done.
    rewrite !Z.div_div by lia. f_equal.
    rewrite (Pos2Z.inj_xO p), Z.pow_mul_r by lia. change (2 ^ 2) with 4.
    replace 4 with (2*2) by lia. rewrite Z.pow_mul_l. lia.
  - rewrite shr_1_m by done. reflexivity.
Qed.

Lemma fexp_normal (e : Z) : -1021 <= e -> fexp prec emax e = e - 53.
Proof. unfold fexp, emin, prec, emax. lia. Qed.

Lemma shr_m_of_loc (m : Z) (l : location) : shr_m (shr_record_of_loc m l) = m.
Proof. destruct l as [|[]]; reflexivity. Qed.

Lemma shr_fexp_normal (p : positive) (ez : Z) (l : location) :
  let d := Z.pos (digits2_pos p) in
  53 <= d -> -1021 <= d + ez ->
  exists mrs, shr_fexp prec emax (Z.pos p) ez l = (mrs, ez + (d - 53))
              /\ shr_m mrs = Z.pos p / 2 ^ (d - 53).
Proof.
  intros d Hd He. unfold shr_fexp. cbn [Zdigits2]. fold d.
  rewrite fexp_normal by done.
  replace (d + ez - 53 - ez) with (d - 53) by lia.
  destruct (d - 53) as [|k|k] eqn:Hk; [| |lia].
  - eexists; split; [cbn [shr]; f_equal; lia|].
    rewrite shr_m_of_loc, Z.pow_0_r, Z.div_1_r. reflexivity.
  - eexists; split; [cbn [shr]; reflexivity|].
    rewrite iter_pos_shr_1_m, shr_m_of_loc; [reflexivity|].
    rewrite shr_m_of_loc. lia.
Qed.

Lemma round_nearest_even_bounds (m : Z) (l : location) :
  m <= round_nearest_even m l <= m + 1.
Proof. destruct l as [|[]]; cbn; try lia. destruct (Z.even m); lia. Qed.

Lemma top53_bounds (p : positive) :
  let d := Z.pos (digits2_pos p) in
  53 <= d -> 2 ^ 52 <= Z.pos p / 2 ^ (d - 53) < 2 ^ 53.
Proof.
  intros d Hd. pose proof (digits2_pos_bounds p) as [Lo Hi]. fold d in Lo, Hi.
  assert (0 < 2 ^ (d - 53)) as Hpos by (apply Z.pow_pos_nonneg; lia).
  split.
  - apply Z.div_le_lower_bound; [done|].
    rewrite <- Z.pow_add_r by lia. replace (d - 53 + 52) with (d - 1) by lia. done.
  - apply Z.div_lt_upper_bound; [done|].
    rewrite <- Z.pow_add_r by lia. replace (d - 53 + 53) with d by lia. done.
Qed.

Lemma two_pow_Q_pos (e : Z) : (0 < 2 ^ e)%Q.
Proof. apply Qpower_0_lt. reflexivity. Qed.

Lemma two_pow_Q_succ (e : Z) : (2 ^ (e + 1) == 2 * 2 ^ e)%Q.
Proof. rewrite Qpower_plus by discriminate. rewrite Qmult_comm. reflexivity. Qed.

Lemma binary_round_aux_normal (sx : bool) (p : positive) (ez : Z) (lz : location) :
  let d := Z.pos (digits2_pos p) in
  let m0 := Z.pos p / 2 ^ (d - 53) in
  let e0 := ez + (d - 53) in
  53 <= d -> -1021 <= d + ez <= 1023 ->
  exists m e,
    binary_round_aux prec emax sx (Z.pos p) ez lz = S754_finite sx m e
    /\ normal53 m /\ e0 <= e <= e0 + 1
    /\ (inject_Z m0 * 2 ^ e0 <= F2Q m e <= inject_Z (m0 + 1) * 2 ^ e0)%Q.
Proof.
  intros d m0 e0 Hd He.
  destruct (shr_fexp_normal p ez lz) as (mrs & E1 & Hm); [done | lia |].
  fold d in E1, Hm. fold m0 in Hm. fold e0 in E1.
  pose proof (top53_bounds p Hd) as Hm0. fold d in Hm0. fold m0 in Hm0.
  unfold binary_round_aux. rewrite E1, Hm.
  pose proof (round_nearest_even_bounds m0 (loc_of_shr_record mrs)) as Hr.
  destruct (round_nearest_even m0 (loc_of_shr_record mrs)) as [|q|q] eqn:Eq; [lia| |lia].
  assert (Z.pos q < 2 ^ 53 \/ Z.pos q = 2 ^ 53) as [Hlt | Heq] by lia.
  - assert (Z.pos (digits2_pos q) = 53) as Hdq by (apply digits2_pos_unique; lia).
    destruct (shr_fexp_normal q e0 loc_Exact) as (mrs2 & E2 & Hm2); [lia | lia |].
    rewrite Hdq in E2, Hm2. rewrite E2. change (2 ^ (53 - 53)) with 1 in Hm2.
    rewrite Z.div_1_r in Hm2. rewrite Hm2.
    replace (e0 + (53 - 53)) with e0 by lia.
    assert ((e0 <=? emax - prec) = true) as -> by (apply Z.leb_le; unfold emax, prec; lia).
    exists q, e0. split; [reflexivity|]. split; [unfold normal53; lia|]. split; [lia|].
    unfold F2Q. split; apply Qmult_le_compat_r;
      try (apply Qlt_le_weak, two_pow_Q_pos); rewrite <- Zle_Qle; lia.
  - assert (Z.pos (digits2_pos q) = 54) as Hdq by (apply digits2_pos_unique; rewrite Heq; lia).
    destruct (shr_fexp_normal q e0 loc_Exact) as (mrs2 & E2 & Hm2); [lia | lia |].
    rewrite Hdq in E2, Hm2. rewrite E2. rewrite Heq in Hm2.
    change (2 ^ 53 / 2 ^ (54 - 53)) with (Z.pos (2 ^ 52)%positive) in Hm2. rewrite Hm2.
    replace (e0 + (54 - 53)) with (e0 + 1) by lia.
    assert ((e0 + 1 <=? emax - prec) = true) as -> by (apply Z.leb_le; unfold emax, prec; lia).
    exists (2 ^ 52)%positive, (e0 + 1). split; [reflexivity|].
    split; [unfold normal53; lia|]. split; [lia|].
    unfold F2Q. rewrite two_pow_Q_succ.
    assert (m0 + 1 = 2 ^ 53) as Hm1 by lia.
    rewrite Hm1. split.
    + rewrite Qmult_assoc. apply Qmult_le_compat_r; [|apply Qlt_le_weak, two_pow_Q_pos].
      rewrite <- (inject_Z_mult _ 2), <- Zle_Qle. lia.
    + rewrite Qmult_assoc. apply Qmult_le_compat_r; [|apply Qlt_le_weak, two_pow_Q_pos].
      rewrite <- (inject_Z_mult _ 2), <- Zle_Qle. lia.
Qed.

Lemma binary_round_aux_exact0 (sx : bool) (m : positive) (ez : Z) :
  normal53 m -> -1074 <= ez <= 971 ->
  binary_round_aux prec emax sx (Z.pos m) ez loc_Exact = S754_finite sx m ez.
Proof.
  intros Hm He.
  assert (Z.pos (digits2_pos m) = 53) as Hd by (apply digits2_pos_unique; exact Hm).
  assert (shr_fexp prec emax (Z.pos m) ez loc_Exact
          = ({| shr_m := Z.pos m; shr_r := false; shr_s := false |}, ez)) as E.
  { unfold shr_fexp. cbn [Zdigits2]. rewrite Hd, fexp_normal by lia.
    replace (53 + ez - 53 - ez) with 0 by lia. reflexivity. }
  unfold binary_round_aux. rewrite E.
  cbn [shr_m loc_of_shr_record round_nearest_even]. rewrite E. cbn [shr_m].
  assert ((ez <=? emax - prec) = true) as -> by (apply Z.leb_le; unfold emax, prec; lia).
  reflexivity.
Qed.

Lemma binary_round_aux_exact1 (sx : bool) (m : positive) (ez : Z) :
  normal53 m -> -1075 <= ez <= 970 ->
  binary_round_aux prec emax sx (Z.pos m~0) ez loc_Exact = S754_finite sx m (ez + 1).
Proof.
  intros Hm He.
  assert (Z.pos (digits2_pos m) = 53) as Hd by (apply digits2_pos_unique; exact Hm).
  assert (shr_fexp prec emax (Z.pos m~0) ez loc_Exact
          = ({| shr_m := Z.pos m; shr_r := false; shr_s := false |}, ez + 1)) as E1.
  { unfold shr_fexp. cbn [Zdigits2 digits2_pos]. rewrite Pos2Z.inj_succ, Hd, fexp_normal by lia.
    replace (Z.succ 53 + ez - 53 - ez) with 1 by lia. reflexivity. }
  assert (shr_fexp prec emax (Z.pos m) (ez + 1) loc_Exact
          = ({| shr_m := Z.pos m; shr_r := false; shr_s := false |}, ez + 1)) as E2.
  { unfold shr_fexp. cbn [Zdigits2]. rewrite Hd, fexp_normal by lia.
    replace (53 + (ez + 1) - 53 - (ez + 1)) with 0 by lia. reflexivity. }
  unfold binary_round_aux. rewrite E1.
  cbn [shr_m loc_of_shr_record round_nearest_even]. rewrite E2. cbn [shr_m].
  assert ((ez + 1 <=? emax - prec) = true) as -> by (apply Z.leb_le; unfold emax, prec; lia).
  reflexivity.
Qed.

Lemma two_pow_Q_inject (k : Z) : 0 <= k -> (inject_Z (2 ^ k) == 2 ^ k)%Q.
Proof. intros Hk. rewrite Zpower_Qpower by done. reflexivity. Qed.

Lemma binary_round_aux_upper (sx : bool) (p : positive) (ez : Z) (lz : location) :
  let d := Z.pos (digits2_pos p) in
  53 <= d -> -1021 <= d + ez <= 1023 ->
  exists m e,
    binary_round_aux prec emax sx (Z.pos p) ez lz = S754_finite sx m e
    /\ normal53 m /\ ez + (d - 53) <= e <= ez + (d - 53) + 1
    /\ (F2Q m e <= inject_Z (Z.pos p) * 2 ^ ez * rnd_up)%Q.
Proof.
  intros d Hd He.
  destruct (binary_round_aux_normal sx p ez lz Hd He) as (m & e & E & Hm & Hex & _ & Hup).
  fold d in Hex, Hup. exists m, e. split; [exact E|]. split; [exact Hm|]. split; [exact Hex|].
  eapply Qle_trans; [exact Hup|].
  pose proof (top53_bounds p Hd) as [Hlo _]. fold d in Hlo.
  set (m0 := Z.pos p / 2 ^ (d - 53)) in *.
  assert (0 < 2 ^ (d - 53)) as Hpos by (apply Z.pow_pos_nonneg; lia).
  assert (m0 * 2 ^ (d - 53) <= Z.pos p) as Hfl.
  { unfold m0. rewrite Z.mul_comm. apply Z.mul_div_le. done. }
  rewrite Qpower_plus by discriminate.
  rewrite <- (two_pow_Q_inject (d - 53)) by lia.
  rewrite Zle_Qle, inject_Z_mult in Hfl.
  rewrite Zle_Qle in Hlo. change (inject_Z (2 ^ 52)) with (4503599627370496 # 1)%Q in Hlo.
  rewrite inject_Z_plus. change (inject_Z 1) with 1%Q.
  pose proof (two_pow_Q_pos ez) as Hz.
  assert (0 < inject_Z (2 ^ (d - 53)))%Q as HposQ
    by (change 0%Q with (inject_Z 0); rewrite <- Zlt_Qlt; done).
  set (x := inject_Z m0) in *. set (K := inject_Z (2 ^ (d - 53))) in *.
  set (P := inject_Z (Z.pos p)) in *. set (E2 := (2 ^ ez)%Q) in *.
  apply Qle_trans with (x * rnd_up * (E2 * K))%Q.
  - apply Qmult_le_compat_r; [unfold rnd_up; lra|].
    apply Qlt_le_weak, Qmult_lt_0_compat; done.
  - assert (x * rnd_up * (E2 * K) == (x * K) * (E2 * rnd_up))%Q as -> by ring.
    assert (P * E2 * rnd_up == P * (E2 * rnd_up))%Q as -> by ring.
    apply Qmult_le_compat_r; [done|].
    apply Qlt_le_weak, Qmult_lt_0_compat; [done|reflexivity].
Qed.

Lemma iter_xO_value (p k : positive) : Z.pos (Pos.iter xO p k) = Z.pos p * 2 ^ Z.pos k.
Proof.
  induction k as [|k IH] using Pos.peano_ind.
  - cbn [Pos.iter]. rewrite (Pos2Z.inj_xO p). lia.
  - rewrite Pos.iter_succ, (Pos2Z.inj_xO (Pos.iter xO p k)), IH, Pos2Z.inj_succ, Z.pow_succ_r by lia.
    lia.
Qed.

Lemma float_of_int_normal (n : Z) :
  0 < n < 2 ^ 53 ->
  exists m d,
    float_of_int n = S754_finite false m (d - 53)
    /\ 1 <= d <= 53 /\ 2 ^ (d - 1) <= n < 2 ^ d
    /\ Z.pos m = n * 2 ^ (53 - d) /\ normal53 m.
Proof.
  intros [Hn0 Hn]. destruct n as [|p|p]; [lia| |lia].
  pose proof (digits2_pos_bounds p) as Hb.
  set (d := Z.pos (digits2_pos p)) in *.
  assert (1 <= d <= 53) as Hd.
  { split; [unfold d; lia|].
    destruct (Z.le_gt_cases d 53) as [|Hgt]; [done|].
    assert (2 ^ 53 <= 2 ^ (d - 1)) by (apply Z.pow_le_mono_r; lia). lia. }
  assert (forall m : positive, Z.pos m = Z.pos p * 2 ^ (53 - d) -> normal53 m) as Hnorm.
  { intros m Hm. unfold normal53. rewrite Hm.
    assert (0 < 2 ^ (53 - d)) by (apply Z.pow_pos_nonneg; lia).
    replace (2 ^ 52) with (2 ^ (d - 1) * 2 ^ (53 - d))
      by (rewrite <- Z.pow_add_r by lia; f_equal; lia).
    replace (2 ^ 53) with (2 ^ d * 2 ^ (53 - d))
      by (rewrite <- Z.pow_add_r by lia; f_equal; lia).
    nia. }
  unfold float_of_int, binary_normalize, binary_round.
  replace (Z.pos (digits2_pos p) + 0) with d by (unfold d; lia).
  rewrite fexp_normal by lia. unfold shl_align.
  destruct (d - 53 - 0) as [|k|k] eqn:Hk; [| lia |].
  - assert (d = 53) as Hd53 by lia.
    assert (normal53 p) as Hp by (apply Hnorm; rewrite Hd53; cbn; lia).
    rewrite binary_round_aux_exact0 by (done || lia).
    assert (Z.pos p = Z.pos p * 2 ^ (53 - d)) as Hv
      by (replace (53 - d) with 0 by lia; lia).
    exists p, d. replace (d - 53) with 0 by lia.
    split; [reflexivity|]. split; [exact Hd|]. split; [exact Hb|]. split; [exact Hv|].
    exact Hp.
  - assert (Z.pos (Pos.iter xO p k) = Z.pos p * 2 ^ (53 - d)) as Hv.
    { rewrite iter_xO_value. f_equal. f_equal. lia. }
    rewrite binary_round_aux_exact0 by (auto || lia).
    exists (Pos.iter xO p k), d. replace (d - 53) with (Z.neg k) by lia.
    split; [reflexivity|]. split; [exact Hd|]. split; [exact Hb|]. split; [exact Hv|].
    apply Hnorm, Hv.
Qed.

Lemma F2Q_float_of_int (n : Z) (m : positive) (d : Z) :
  1 <= d <= 53 -> Z.pos m = n * 2 ^ (53 - d) -> (F2Q m (d - 53) == inject_Z n)%Q.
Proof.
  intros Hd Hm. unfold F2Q. rewrite Hm, inject_Z_mult, two_pow_Q_inject by lia.
  rewrite <- Qmult_assoc, <- Qpower_plus by discriminate.
  replace (53 - d + (d - 53)) with 0 by lia. cbn. ring.
Qed.

Lemma fmul_normal (m1 m2 : positive) (e1 e2 : Z) :
  normal53 m1 -> normal53 m2 -> -1000 <= e1 + e2 <= 900 ->
  exists m e,
    fmul (S754_finite false m1 e1) (S754_finite false m2 e2) = S754_finite false m e
    /\ normal53 m /\ e1 + e2 + 52 <= e <= e1 + e2 + 54
    /\ (F2Q m e <= F2Q m1 e1 * F2Q m2 e2 * rnd_up)%Q.
Proof.
  intros H1 H2 He. unfold fmul, SFmul. cbn [xorb].
  unfold normal53 in H1, H2.
  assert (2 ^ 104 <= Z.pos (m1 * m2) < 2 ^ 106) as Hp.
  { rewrite Pos2Z.inj_mul. change (2 ^ 104) with (2 ^ 52 * 2 ^ 52).
    change (2 ^ 106) with (2 ^ 53 * 2 ^ 53). nia. }
  pose proof (digits2_pos_bounds (m1 * m2)) as Hb.
  set (d := Z.pos (digits2_pos (m1 * m2))) in *.
  assert (105 <= d <= 106) as Hd.
  { split.
    - destruct (Z.le_gt_cases 105 d) as [|Hgt]; [done|].
      assert (2 ^ d <= 2 ^ 104) by (apply Z.pow_le_mono_r; lia). lia.
    - destruct (Z.le_gt_cases d 106) as [|Hgt]; [done|].
      assert (2 ^ 106 <= 2 ^ (d - 1)) by (apply Z.pow_le_mono_r; lia). lia. }
  destruct (binary_round_aux_upper false (m1 * m2) (e1 + e2) loc_Exact)
    as (m & e & E & Hm & Hex & Hup); [fold d; lia | fold d; lia |].
  fold d in Hex. exists m, e. split; [exact E|]. split; [exact Hm|]. split; [lia|].
  eapply Qle_trans; [exact Hup|]. apply Qmult_le_compat_r; [|unfold rnd_up; lra].
  unfold F2Q. rewrite Pos2Z.inj_mul, inject_Z_mult, Qpower_plus by discriminate.
  apply Qle_lteq. right. ring.
Qed.

Lemma digits_le_53 (p : positive) :
  Z.pos p < 2 ^ 53 -> 1 <= Z.pos (digits2_pos p) <= 53.
Proof.
  intros Hp. pose proof (digits2_pos_bounds p) as [Lo _]. split; [lia|].
  destruct (Z.le_gt_cases (Z.pos (digits2_pos p)) 53) as [|Hgt]; [done|].
  assert (2 ^ 53 <= 2 ^ (Z.pos (digits2_pos p) - 1)) by (apply Z.pow_le_mono_r; lia). lia.
Qed.

Lemma int_truediv_bounds (a b : Z) :
  0 < a < 2 ^ 53 -> 0 < b < 2 ^ 53 ->
  exists m e,
    int_truediv a b = Ok (S754_finite false m e)
    /\ normal53 m /\ -105 <= e <= 1
    /\ (F2Q m e <= inject_Z a / inject_Z b * rnd_up)%Q.
Proof.
  intros Ha Hb. destruct a as [|pa|pa]; [lia| |lia]. destruct b as [|pb|pb]; [lia| |lia].
  pose proof (digits2_pos_bounds pa) as Ba. pose proof (digits2_pos_bounds pb) as Bb.
  pose proof (digits_le_53 pa ltac:(lia)) as Da. pose proof (digits_le_53 pb ltac:(lia)) as Db.
  set (da := Z.pos (digits2_pos pa)) in *. set (db := Z.pos (digits2_pos pb)) in *.
  set (s := 53 + db - da).
  assert (0 < s) as Hs by (unfold s; lia).
  assert (SFdiv_core_binary prec emax (Z.pos pa) 0 (Z.pos pb) 0
          = (Z.pos pa * 2 ^ s / Z.pos pb, - s,
             new_location (Z.pos pb) ((Z.pos pa * 2 ^ s) mod Z.pos pb))) as Ecore.
  { unfold SFdiv_core_binary. cbn [Zdigits2]. fold da db.
    replace (da + 0 - (db + 0)) with (da - db) by lia. rewrite fexp_normal by lia.
    replace (Z.min (da - db - 53) (0 - 0)) with (- s) by (unfold s; lia).
    replace (0 - 0 - - s) with s by lia.
    destruct s as [|ps|ps] eqn:Es; [lia| |lia].
    rewrite Z.shiftl_mul_pow2 by lia. unfold Z.div, Z.modulo.
    destruct (Z.div_eucl (Z.pos pa * 2 ^ Z.pos ps) (Z.pos pb)); reflexivity. }
  set (q := Z.pos pa * 2 ^ s / Z.pos pb) in *.
  assert (0 < 2 ^ s) as Hps by (apply Z.pow_pos_nonneg; lia).
  assert (q * Z.pos pb <= Z.pos pa * 2 ^ s) as Hqm.
  { unfold q. rewrite Z.mul_comm. apply Z.mul_div_le. lia. }
  assert (2 ^ (da - 1) * 2 ^ s = 2 ^ 52 * 2 ^ db) as Hlo
    by (rewrite <- !Z.pow_add_r by lia; f_equal; unfold s; lia).
  assert (2 ^ da * 2 ^ s = 2 ^ 54 * 2 ^ (db - 1)) as Hhi
    by (rewrite <- !Z.pow_add_r by lia; f_equal; unfold s; lia).
  assert (2 ^ 52 <= q < 2 ^ 54) as Hqr.
  { unfold q. split.
    - apply Z.div_le_lower_bound; [lia|]. nia.
    - apply Z.div_lt_upper_bound; [lia|]. nia. }
  destruct q as [|p|p] eqn:Eq; [lia| |lia].
  pose proof (digits2_pos_bounds p) as Hb'.
  set (d := Z.pos (digits2_pos p)) in *.
  assert (53 <= d <= 54) as Hd.
  { split.
    - destruct (Z.le_gt_cases 53 d) as [|Hgt]; [done|].
      assert (2 ^ d <= 2 ^ 52) by (apply Z.pow_le_mono_r; lia). lia.
    - destruct (Z.le_gt_cases d 54) as [|Hgt]; [done|].
      assert (2 ^ 54 <= 2 ^ (d - 1)) by (apply Z.pow_le_mono_r; lia). lia. }
  destruct (binary_round_aux_upper false p (- s)
              (new_location (Z.pos pb) ((Z.pos pa * 2 ^ s) mod Z.pos pb)))
    as (m & e & E & Hm & Hex & Hup); [fold d; lia | fold d; unfold s; lia |].
  fold d in Hex. exists m, e.
  split.
  { unfold int_truediv. cbn [Z.eqb raw_int SFdiv xorb]. rewrite Ecore, E. reflexivity. }
  split; [exact Hm|]. split; [unfold s in Hex; lia|].
  eapply Qle_trans; [exact Hup|]. apply Qmult_le_compat_r; [|unfold rnd_up; lra].
  rewrite Zle_Qle, !inject_Z_mult, two_pow_Q_inject in Hqm by lia.
  assert (0 < inject_Z (Z.pos pb))%Q as Hpb
    by (change 0%Q with (inject_Z 0); rewrite <- Zlt_Qlt; lia).
  pose proof (two_pow_Q_pos s) as HpsQ. rewrite Qpower_opp.
  set (A := inject_Z (Z.pos pa)) in *. set (B := inject_Z (Z.pos pb)) in *.
  set (X := inject_Z (Z.pos p)) in *. set (S := (2 ^ s)%Q) in *.
  apply Qle_trans with ((A * S / B) * / S)%Q.
  - apply Qmult_le_compat_r.
    + apply Qle_shift_div_l; [exact Hpb | exact Hqm].
    + apply Qlt_le_weak, Qinv_lt_0_compat, HpsQ.
  - apply Qle_lteq. right. field. split; lra.
Qed.

Lemma ceil_finite_pos (m : positive) (e : Z) : 1 <= ceil_finite false m e.
Proof.
  unfold ceil_finite. destruct (Z.leb_spec 0 e) as [He | He].
  - assert (0 < 2 ^ e) by (apply Z.pow_pos_nonneg; lia). nia.
  - assert (0 < 2 ^ (- e)) as Hp by (apply Z.pow_pos_nonneg; lia).
    assert (- Z.pos m / 2 ^ (- e) < 0); [|lia].
    apply Z.div_lt_upper_bound; [done|]. lia.
Qed.

Lemma ceil_finite_le (m : positive) (e k : Z) :
  (F2Q m e <= inject_Z k)%Q -> ceil_finite false m e <= k.
Proof.
  unfold F2Q, ceil_finite. intros H. destruct (Z.leb_spec 0 e) as [He | He].
  - rewrite <- two_pow_Q_inject, <- inject_Z_mult, <- Zle_Qle in H by done. exact H.
  - assert (0 < 2 ^ (- e)) as Hp by (apply Z.pow_pos_nonneg; lia).
    assert (Z.pos m <= k * 2 ^ (- e)) as Hm.
    { rewrite Zle_Qle, inject_Z_mult, two_pow_Q_inject by lia.
      rewrite Qpower_opp. apply Qle_shift_div_l; [apply two_pow_Q_pos | exact H]. }
    assert (- k <= - Z.pos m / 2 ^ (- e)); [|lia].
    apply Z.div_le_lower_bound; [done|]. lia.
Qed.

Lemma int_truediv_32_exact (p : positive) :
  let d := Z.pos (digits2_pos p) in
  Z.pos p < 2 ^ 53 ->
  exists m, int_truediv (Z.pos p) 32 = Ok (S754_finite false m (d - 58))
            /\ Z.pos m = Z.pos p * 2 ^ (53 - d).
Proof.
  intros d Hp. pose proof (digits2_pos_bounds p) as Bp. pose proof (digits_le_53 p Hp) as Dp.
  fold d in Bp, Dp.
  assert (0 < 2 ^ (53 - d)) as Hpow by (apply Z.pow_pos_nonneg; lia).
  destruct (Z.pos p * 2 ^ (53 - d)) as [|m|m] eqn:Em; [lia| |lia].
  assert (normal53 m) as Hm.
  { unfold normal53. rewrite <- Em.
    replace (2 ^ 52) with (2 ^ (d - 1) * 2 ^ (53 - d))
      by (rewrite <- Z.pow_add_r by lia; f_equal; lia).
    replace (2 ^ 53) with (2 ^ d * 2 ^ (53 - d))
      by (rewrite <- Z.pow_add_r by lia; f_equal; lia).
    nia. }
  exists m. split; [|reflexivity].
  set (s := 59 - d). assert (0 < s) as Hs by (unfold s; lia).
  assert (Z.pos p * 2 ^ s = Z.pos m~0 * 32) as Hfac.
  { rewrite (Pos2Z.inj_xO m), <- Em. unfold s.
    replace (59 - d) with (53 - d + 6) by lia. rewrite Z.pow_add_r by lia.
    change (2 ^ 6) with 64. lia. }
  assert (SFdiv_core_binary prec emax (Z.pos p) 0 32 0 = (Z.pos m~0, - s, loc_Exact)) as Ecore.
  { unfold SFdiv_core_binary. cbn [Zdigits2]. fold d. change (Z.pos (digits2_pos 32)) with 6.
    replace (d + 0 - (6 + 0)) with (d - 6) by lia. rewrite fexp_normal by lia.
    replace (Z.min (d - 6 - 53) (0 - 0)) with (- s) by (unfold s; lia).
    replace (0 - 0 - - s) with s by lia.
    destruct s as [|ps|ps] eqn:Es; [lia| |lia].
    rewrite Z.shiftl_mul_pow2 by lia.
    destruct (Z.div_eucl (Z.pos p * 2 ^ Z.pos ps) 32) as [q r] eqn:Ediv.
    assert (q = Z.pos p * 2 ^ Z.pos ps / 32) as Hq
      by (unfold Z.div; rewrite Ediv; reflexivity).
    assert (r = (Z.pos p * 2 ^ Z.pos ps) mod 32) as Hr
      by (unfold Z.modulo; rewrite Ediv; reflexivity).
    rewrite Hfac, Z.div_mul in Hq by lia. rewrite Hfac, Z.mod_mul in Hr by lia.
    subst q r. reflexivity. }
  unfold int_truediv. cbn [Z.eqb raw_int SFdiv xorb]. rewrite Ecore.
  rewrite binary_round_aux_exact1 by (done || unfold s; lia).
  do 2 f_equal. unfold s. lia.
Qed.

Lemma pad_to_32_exact (n : Z) :
  0 < n < 2 ^ 53 -> pad_to_32 n = Ok (round_up_32 n).
Proof.
  intros [Hn0 Hn]. destruct n as [|p|p]; [lia| |lia].
  destruct (int_truediv_32_exact p Hn) as (m & E & Hv).
  pose proof (digits_le_53 p Hn) as Dp.
  set (d := Z.pos (digits2_pos p)) in *.
  unfold pad_to_32, round_up_32. rewrite E. cbn [mbind res_bind]. unfold math_ceil.
  cbn [mbind res_bind mret res_ret]. do 2 f_equal. unfold ceil_finite.
  destruct (Z.leb_spec 0 (d - 58)) as [|_]; [lia|].
  rewrite Hv. replace (- (d - 58)) with (5 + (53 - d)) by lia.
  rewrite Z.pow_add_r by lia. change (2 ^ 5) with 32.
  assert (0 < 2 ^ (53 - d)) as Hp by (apply Z.pow_pos_nonneg; lia).
  rewrite <- Z.mul_opp_l, Z.div_mul_cancel_r by lia.
  replace (Z.pos p + 31) with (- (- Z.pos p) + 31) by lia.
  generalize (- Z.pos p). intros x.
  pose proof (Z.div_mod x 32 ltac:(lia)). pose proof (Z.mod_pos_bound x 32 ltac:(lia)).
  apply Z.div_unique with (r := 31 - x mod 32); lia.
Qed.

Lemma scaled_side_bounds (side target longer : Z) :
  0 < side <= longer -> longer < 2 ^ 31 -> 0 < target < 2 ^ 31 ->
  exists s, scaled_side side target longer = Ok s /\ 1 <= s <= target + 1.
Proof.
  intros Ha Hb Ht.
  destruct (float_of_int_normal side) as (ma & da & Ea & Hda & _ & Hva & Hma); [lia|].
  destruct (int_truediv_bounds target longer) as (ms & es & Es & Hms & Hes & Hs); [lia|lia|].
  unfold scaled_side. rewrite Es. cbn [mbind res_bind]. unfold int_mul_float. rewrite Ea.
  destruct (fmul_normal ma ms (da - 53) es) as (mr & er & Er & Hmr & Her & Hr);
    [done | done | lia |].
  rewrite Er. unfold math_ceil. eexists; split; [reflexivity|].
  split; [apply ceil_finite_pos|]. apply ceil_finite_le.
  rewrite (F2Q_float_of_int side) in Hr by done.
  assert (0 < inject_Z side <= inject_Z longer)%Q as [HA HAB]
    by (split; [change 0%Q with (inject_Z 0); rewrite <- Zlt_Qlt | rewrite <- Zle_Qle]; lia).
  assert (0 < inject_Z target <= 2147483648)%Q as [HT HT2].
  { split; [change 0%Q with (inject_Z 0); rewrite <- Zlt_Qlt; lia|].
    change 2147483648%Q with (inject_Z (2 ^ 31)). rewrite <- Zle_Qle. lia. }
  rewrite inject_Z_plus. change (inject_Z 1) with 1%Q.
  set (A := inject_Z side) in *. set (B := inject_Z longer) in *.
  set (T := inject_Z target) in *. set (S := F2Q ms es) in *.
  eapply Qle_trans; [exact Hr|].
  apply Qle_trans with (A * (T / B * rnd_up) * rnd_up)%Q.
  { apply Qmult_le_compat_r; [|unfold rnd_up; lra].
    apply Qmult_le_l; [exact HA | exact Hs]. }
  assert (A * (T / B * rnd_up) * rnd_up == (A / B) * (T * rnd_up * rnd_up))%Q as ->
    by (field; lra).
  apply Qle_trans with (1 * (T * rnd_up * rnd_up))%Q.
  { apply Qmult_le_compat_r; [|unfold rnd_up; nra].
    apply Qle_shift_div_r; lra. }
  unfold rnd_up. lra.
Qed.

End FloatFacts.

(** ** Rounding up to a multiple of 32 *)

Section RoundUp.

Lemma round_up_32_smallest (n : Z) : smallest_multiple_of_32_ge n (round_up_32 n).
Proof.
  unfold smallest_multiple_of_32_ge, multiple_of_32, round_up_32.
  pose proof (Z.div_mod (n + 31) 32 ltac:(lia)) as Hd.
  pose proof (Z.mod_pos_bound (n + 31) 32 ltac:(lia)) as Hm.
  split; [exists ((n + 31) / 32); lia|]. split; [lia|].
  intros k [j ->] Hk.
  assert ((n + 31) / 32 < j + 1); [|lia].
  apply Z.div_lt_upper_bound; lia.
Qed.

End RoundUp.

(** ** Running computations *)

Section Running.

Context {cv : Cv2}.

Lemma bind_run {A B : Type} (m : M A) (f : A -> M B) (w w' : world) (a : A) :
  m w = (Ok a, w') -> (m ≫= f) w = f a w'.
Proof. intros H. unfold mbind, M_bind. rewrite H. reflexivity. Qed.

Lemma lift_run {A : Type} (r : res A) (a : A) (w : world) :
  r = Ok a -> lift r w = (Ok a, w).
Proof. intros ->. reflexivity. Qed.

Lemma read_run (l : loc) (a : ndarray) (w : world) :
  heap w !! l = Some a -> read l w = (Ok a, w).
Proof. intros H. unfold read. rewrite H. reflexivity. Qed.

Lemma cv2_resize_run (src : loc) (a : ndarray) (width height : Z) (w : world) :
  heap w !! src = Some a -> 0 < rows a -> 0 < cols a -> 0 < width -> 0 < height ->
  let dst := fresh (dom (heap w)) in
  cv2_resize src (width, height) w =
    (Ok dst,
     {| heap := <[dst := resized a width height]> (heap w);
        trace := trace w ++ [Resize src (width, height) dst];
        edge_colors := edge_colors w |}).
Proof.
  intros Hsrc Hr Hc Hw Hh dst. unfold cv2_resize.
  erewrite bind_run by (apply read_run; exact Hsrc). cbn [fst snd].
  assert (((0 <? rows a) && (0 <? cols a) && (0 <? width) && (0 <? height)) = true) as ->
    by (rewrite !andb_true_iff, !Z.ltb_lt; lia).
  reflexivity.
Qed.

Lemma cv2_copyMakeBorder_run (src : loc) (a : ndarray) (top bottom left right : Z)
    (w : world) :
  heap w !! src = Some a -> 0 <= top -> 0 <= bottom -> 0 <= left -> 0 <= right ->
  let dst := fresh (dom (heap w)) in
  cv2_copyMakeBorder src top bottom left right w =
    (Ok dst,
     {| heap := <[dst := bordered a top bottom left right]> (heap w);
        trace := trace w ++ [CopyMakeBorder src top bottom left right dst];
        edge_colors := edge_colors w |}).
Proof.
  intros Hsrc Ht Hb Hl Hr dst. unfold cv2_copyMakeBorder.
  erewrite bind_run by (apply read_run; exact Hsrc).
  assert (((0 <=? top) && (0 <=? bottom) && (0 <=? left) && (0 <=? right)) = true) as ->
    by (rewrite !andb_true_iff, !Z.leb_le; lia).
  reflexivity.
Qed.

Lemma scaled_side_steps (side target longer s : Z) :
  scaled_side side target longer = Ok s ->
  exists scale x,
    int_truediv target longer = Ok scale /\ int_mul_float side scale = Ok x
    /\ math_ceil x = Ok s.
Proof.
  unfold scaled_side. intros H.
  destruct (int_truediv target longer) as [scale|] eqn:E1; [|discriminate].
  cbn [mbind res_bind] in H.
  destruct (int_mul_float side scale) as [x|] eqn:E2; [|discriminate].
  cbn [mbind res_bind] in H. eauto.
Qed.

Lemma pad_to_32_steps (n : Z) :
  0 < n < 2 ^ 53 ->
  exists q c, int_truediv n 32 = Ok q /\ math_ceil q = Ok c /\ c * 32 = round_up_32 n.
Proof.
  intros Hn. pose proof (pad_to_32_exact n Hn) as H. unfold pad_to_32 in H.
  destruct (int_truediv n 32) as [q|] eqn:E1; [|discriminate].
  cbn [mbind res_bind] in H.
  destruct (math_ceil q) as [c|] eqn:E2; [|discriminate].
  cbn [mbind res_bind mret res_ret] in H. injection H as H. eauto.
Qed.

(** The complete run of the resizer on an allocated image with C-int sides:
    the scaled side [s], the resized and target sizes, the two new arrays
    and the two OpenCV calls. *)
Lemma keep_aspect_ratio_resizer_run (image : loc) (target_size : Z) (w : world)
    (a : ndarray) :
  heap w !! image = Some a ->
  int_sized (rows a) -> int_sized (cols a) -> int_sized target_size ->
  exists s rh rw th tw,
    1 <= s <= target_size + 1
    /\ (if cols a <? rows a
        then scaled_side (cols a) target_size (rows a) = Ok s
             /\ rh = target_size /\ rw = s /\ th = target_size /\ tw = round_up_32 s
        else scaled_side (rows a) target_size (cols a) = Ok s
             /\ rh = s /\ rw = target_size /\ th = round_up_32 s /\ tw = target_size)
    /\ let r := fresh (dom (heap w)) in
       let ar := resized a rw rh in
       let o := fresh (dom (<[r := ar]> (heap w))) in
       keep_aspect_ratio_resizer image target_size w =
         (Ok (o, (th, tw)),
          {| heap := <[o := bordered ar 0 (th - rh) 0 (tw - rw)]> (<[r := ar]> (heap w));
             trace := (trace w ++ [Resize image (rw, rh) r])
                      ++ [CopyMakeBorder r 0 (th - rh) 0 (tw - rw) o];
             edge_colors := edge_colors w |}).
Proof.
  intros Himg Hr Hc Ht. unfold int_sized in Hr, Hc, Ht.
  unfold keep_aspect_ratio_resizer.
  erewrite bind_run by (apply read_run; exact Himg). cbv zeta.
  destruct (Z.ltb_spec (cols a) (rows a)) as [Htall | Hwide].
  - destruct (scaled_side_bounds (cols a) target_size (rows a)) as (s & Es & Hs); [lia..|].
    destruct (scaled_side_steps _ _ _ _ Es) as (scale & x & E1 & E2 & E3).
    destruct (pad_to_32_steps s) as (q & c & E4 & E5 & E6); [lia|].
    exists s, target_size, s, target_size, (round_up_32 s).
    split; [exact Hs|]. split; [auto|]. cbv zeta.
    pose proof (round_up_32_smallest s) as (_ & Hge & _).
    erewrite bind_run; cycle 1.
    { erewrite bind_run by (apply lift_run; exact E1).
      erewrite bind_run by (apply lift_run; exact E2).
      erewrite bind_run by (apply lift_run; exact E3).
      erewrite bind_run by (apply (cv2_resize_run image a); (exact Himg || lia)).
      erewrite bind_run by (apply lift_run; exact E4).
      erewrite bind_run by (apply lift_run; exact E5).
      reflexivity. }
    cbv beta iota.
    erewrite bind_run by (apply read_run; cbn [heap]; apply lookup_insert_eq).
    erewrite bind_run;
      [| apply (cv2_copyMakeBorder_run _ (resized a s target_size));
         [cbn [heap]; apply lookup_insert_eq | cbn [rows cols resized]; lia ..] ].
    cbn [heap trace edge_colors rows cols resized]. rewrite E6. reflexivity.
  - destruct (scaled_side_bounds (rows a) target_size (cols a)) as (s & Es & Hs); [lia..|].
    destruct (scaled_side_steps _ _ _ _ Es) as (scale & x & E1 & E2 & E3).
    destruct (pad_to_32_steps s) as (q & c & E4 & E5 & E6); [lia|].
    exists s, s, target_size, (round_up_32 s), target_size.
    split; [exact Hs|]. split; [auto|]. cbv zeta.
    pose proof (round_up_32_smallest s) as (_ & Hge & _).
    erewrite bind_run; cycle 1.
    { erewrite bind_run by (apply lift_run; exact E1).
      erewrite bind_run by (apply lift_run; exact E2).
      erewrite bind_run by (apply lift_run; exact E3).
      erewrite bind_run by (apply (cv2_resize_run image a); (exact Himg || lia)).
      erewrite bind_run by (apply lift_run; exact E4).
      erewrite bind_run by (apply lift_run; exact E5).
      reflexivity. }
    cbv beta iota.
    erewrite bind_run by (apply read_run; cbn [heap]; apply lookup_insert_eq).
    erewrite bind_run;
      [| apply (cv2_copyMakeBorder_run _ (resized a target_size s));
         [cbn [heap]; apply lookup_insert_eq | cbn [rows cols resized]; lia ..] ].
    cbn [heap trace edge_colors rows cols resized]. rewrite E6. reflexivity.
Qed.

Lemma py_index_run {A : Type} (l : list A) (i : Z) (x : A) :
  0 <= i -> l !! Z.to_nat i = Some x -> py_index l i = Ok x.
Proof.
  intros Hi Hx. unfold py_index.
  pose proof (lookup_lt_Some _ _ _ Hx) as Hlt.
  destruct (Z.ltb_spec i 0) as [|_]; [lia|].
  assert (((0 <=? i) && (i <? Z.of_nat (length l))) = true) as ->
    by (rewrite andb_true_iff, Z.leb_le, Z.ltb_lt; lia).
  rewrite Hx. reflexivity.
Qed.

Lemma after_calls_nil (w : world) : after_calls [] w = w.
Proof. destruct w. unfold after_calls. cbn. rewrite app_nil_r. reflexivity. Qed.

Lemma after_calls_app (cs1 cs2 : list cv2_call) (w : world) :
  after_calls (cs1 ++ cs2) w = after_calls cs2 (after_calls cs1 w).
Proof. unfold after_calls. cbn. rewrite foldl_app, app_assoc. reflexivity. Qed.

Lemma paint_bound (h : gmap loc ndarray) (c : cv2_call) (l : loc) :
  is_Some (h !! l) -> is_Some (paint h c !! l).
Proof.
  intros Hl. destruct c as [img ? ? ? ?|img ? ? ? ?| |]; cbn [paint]; try done.
  all: destruct (h !! img) eqn:E; [|done].
  all: destruct (decide (img = l)) as [->|Hne];
    [rewrite lookup_insert_eq; eauto | rewrite lookup_insert_ne by done; done].
Qed.

Lemma after_calls_bound (cs : list cv2_call) (w : world) (l : loc) :
  bound l w -> bound l (after_calls cs w).
Proof.
  unfold bound, after_calls. cbn [heap]. generalize (heap w).
  induction cs as [|c cs IH]; intros h Hl; cbn [foldl]; [done|].
  apply IH, paint_bound, Hl.
Qed.

Lemma cv2_circle_run (img : loc) (center : point) (radius : Z) (col : color)
    (thickness : Z) (w : world) :
  bound img w ->
  cv2_circle img center radius col thickness w
  = (Ok tt, after_calls [Circle img center radius col thickness] w).
Proof.
  intros [a Ha]. unfold cv2_circle.
  erewrite bind_run by (apply read_run; exact Ha).
  unfold after_calls. cbn [foldl paint]. rewrite Ha. reflexivity.
Qed.

Lemma cv2_line_run (img : loc) (pt1 pt2 : point) (col : color) (thickness : Z)
    (w : world) :
  bound img w ->
  cv2_line img pt1 pt2 col thickness w
  = (Ok tt, after_calls [Line img pt1 pt2 col thickness] w).
Proof.
  intros [a Ha]. unfold cv2_line.
  erewrite bind_run by (apply read_run; exact Ha).
  unfold after_calls. cbn [foldl paint]. rewrite Ha. reflexivity.
Qed.

(** A loop whose every iteration makes the calls [f x] makes the calls of
    all iterations, in order. *)
Lemma for_each_calls {A : Type} (body : A -> M unit) (f : A -> list cv2_call)
    (img : loc) (l : list A) :
  (forall x w, x ∈ l -> bound img w -> body x w = (Ok tt, after_calls (f x) w)) ->
  forall w, bound img w -> for_each body l w = (Ok tt, after_calls (flat_map f l) w).
Proof.
  induction l as [|x l IH]; intros Hbody w Hw.
  - cbn [for_each flat_map]. rewrite after_calls_nil. reflexivity.
  - cbn [for_each flat_map].
    erewrite bind_run by (apply Hbody; [left | exact Hw]).
    rewrite after_calls_app. apply IH.
    + intros y w' Hy. apply Hbody. right. exact Hy.
    + apply after_calls_bound, Hw.
Qed.

Lemma draw_landmark_run (image : loc) (keypoints : list KeyPoint.t) (col : color)
    (thr : spec_float) (i : nat) (kp : KeyPoint.t) (w : world) :
  keypoints !! i = Some kp -> bound image w ->
  draw_landmark image keypoints col thr (Z.of_nat i) w
  = (Ok tt, after_calls (landmark_calls image col thr kp) w).
Proof.
  intros Hkp Hw. unfold draw_landmark, landmark_calls.
  erewrite bind_run by (apply lift_run, py_index_run; [lia | rewrite Nat2Z.id; exact Hkp]).
  destruct (fle thr (KeyPoint.score kp)).
  - apply cv2_circle_run, Hw.
  - rewrite after_calls_nil. reflexivity.
Qed.

Lemma draw_landmarks_run (image : loc) (keypoints : list KeyPoint.t) (col : color)
    (thr : spec_float) (w : world) :
  bound image w ->
  for_each (draw_landmark image keypoints col thr) (py_range (length keypoints)) w
  = (Ok tt, after_calls (flat_map (landmark_calls image col thr) keypoints) w).
Proof.
  intros Hw.
  assert (forall (suf pre : list KeyPoint.t) (w : world),
             keypoints = pre ++ suf -> bound image w ->
             for_each (draw_landmark image keypoints col thr)
               (Z.of_nat <$> seq (length pre) (length suf)) w
             = (Ok tt, after_calls (flat_map (landmark_calls image col thr) suf) w)) as Hgen.
  { induction suf as [|kp suf IH]; intros pre w' Hk Hw'.
    - cbn. rewrite after_calls_nil. reflexivity.
    - cbn [length seq fmap list_fmap for_each flat_map].
      erewrite bind_run; cycle 1.
      { apply (draw_landmark_run _ _ _ _ _ kp); [|exact Hw'].
        rewrite Hk, lookup_app_r, Nat.sub_diag by lia. reflexivity. }
      rewrite after_calls_app.
      specialize (IH (pre ++ [kp]) (after_calls (landmark_calls image col thr kp) w')).
      rewrite length_app, Nat.add_1_r in IH. apply IH.
      + rewrite <- app_assoc. exact Hk.
      + apply after_calls_bound, Hw'. }
  apply (Hgen keypoints [] w); [reflexivity | exact Hw].
Qed.

Lemma draw_edge_run (image : loc) (keypoints : list KeyPoint.t) (thr : spec_float)
    (i j : Z) (col : color) (k0 k1 : KeyPoint.t) (w : world) :
  0 <= i -> 0 <= j ->
  keypoints !! Z.to_nat i = Some k0 -> keypoints !! Z.to_nat j = Some k1 ->
  bound image w ->
  draw_edge image keypoints thr ((i, j), col) w
  = (Ok tt, after_calls (edge_calls image thr k0 k1 col) w).
Proof.
  intros Hi Hj H0 H1 Hw. unfold draw_edge, edge_calls. cbn [fst snd].
  erewrite bind_run by (apply lift_run, py_index_run; [exact Hi | exact H0]).
  destruct (flt thr (KeyPoint.score k0)); cbn [andb].
  - erewrite bind_run by (apply lift_run, py_index_run; [exact Hj | exact H1]).
    destruct (flt thr (KeyPoint.score k1)).
    + apply cv2_line_run, Hw.
    + rewrite after_calls_nil. reflexivity.
  - rewrite after_calls_nil. reflexivity.
Qed.

End Running.

(** ** Comparisons of floats *)

Section Comparisons.

Lemma SFcompare_swap (x y : spec_float) :
  SFcompare y x = CompOpp <$> SFcompare x y.
Proof.
  destruct x as [sx|sx| |sx mx ex], y as [sy|sy| |sy my ey]; cbn;
    try reflexivity; try (destruct sx; reflexivity); try (destruct sy; reflexivity);
    try (destruct sx, sy; reflexivity).
  destruct sx, sy; cbn; try reflexivity.
  all: rewrite (Z.compare_antisym ex ey); destruct (ex ?= ey); cbn; try reflexivity.
  all: rewrite !Pos.compare_cont_spec; cbn; rewrite (Pos.compare_antisym mx my).
  all: destruct (mx ?= my)%positive; reflexivity.
Qed.

Lemma fle_not_flt (x y : spec_float) : fle x y = true -> flt y x = false.
Proof.
  unfold fle, flt, SFleb, SFltb. rewrite (SFcompare_swap x y).
  destruct (SFcompare x y) as [[]|]; cbn; congruence.
Qed.

Lemma feq_fle (x y : spec_float) : feq x y = true -> fle y x = true.
Proof.
  unfold feq, fle, SFeqb, SFleb. rewrite (SFcompare_swap x y).
  destruct (SFcompare x y) as [[]|]; cbn; congruence.
Qed.

Lemma feq_not_flt (x y : spec_float) : feq x y = true -> flt y x = false.
Proof.
  unfold feq, flt, SFeqb, SFltb. rewrite (SFcompare_swap x y).
  destruct (SFcompare x y) as [[]|]; cbn; congruence.
Qed.

End Comparisons.

(** ** The edge table *)

Section EdgeTable.

Lemma table_in_range : Forall (edge_in_range 17) KEYPOINT_EDGE_INDS_TO_COLOR.
Proof.
  unfold KEYPOINT_EDGE_INDS_TO_COLOR, edge_in_range.
  repeat (constructor; [cbn [fst snd]; lia|]). constructor.
Qed.

Lemma table_keys_distinct : NoDup (fst <$> KEYPOINT_EDGE_INDS_TO_COLOR).
Proof. apply (bool_decide_unpack _). vm_compute. exact I. Qed.

End EdgeTable.

(** ** Running [visualize] *)

Section Drawing.

Context {cv : Cv2}.

Lemma draw_edges_run (image : loc) (keypoints : list KeyPoint.t) (thr : spec_float)
    (table : list ((Z * Z) * color)) (w : world) :
  Forall (edge_in_range (Z.of_nat (length keypoints))) table ->
  bound image w ->
  for_each (draw_edge image keypoints thr) table w
  = (Ok tt, after_calls (table_calls image thr keypoints table) w).
Proof.
  intros Hrange Hw. unfold table_calls.
  apply (for_each_calls _ _ image); [|exact Hw].
  intros [[i j] col] w' Hin Hw'.
  rewrite Forall_forall in Hrange. destruct (Hrange _ Hin) as [Hi Hj]. cbn [fst snd] in *.
  destruct (lookup_lt_is_Some_2 keypoints (Z.to_nat i)) as [k0 H0]; [lia|].
  destruct (lookup_lt_is_Some_2 keypoints (Z.to_nat j)) as [k1 H1]; [lia|].
  rewrite H0, H1. apply draw_edge_run; (lia || assumption).
Qed.

Lemma draw_person_run (image : loc) (col : color) (kthr ithr : spec_float)
    (person : Person.t) (w : world) :
  has_17_keypoints person -> module_loaded w -> bound image w ->
  draw_person image col kthr ithr person w
  = (Ok tt, after_calls (visualize_calls image col kthr ithr person) w).
Proof.
  intros H17 Hload Hw. unfold draw_person, visualize_calls.
  destruct (flt (Person.score person) ithr).
  - rewrite after_calls_nil. reflexivity.
  - erewrite bind_run by (apply draw_landmarks_run, Hw).
    erewrite bind_run by reflexivity. cbn [after_calls edge_colors].
    unfold person_calls. rewrite after_calls_app, Hload.
    apply draw_edges_run.
    + unfold has_17_keypoints in H17. rewrite H17. exact table_in_range.
    + apply after_calls_bound, Hw.
Qed.

Lemma visualize_run (image : loc) (persons : list Person.t) (col : color)
    (kthr ithr : spec_float) (w : world) :
  Forall has_17_keypoints persons -> module_loaded w -> bound image w ->
  visualize image persons col kthr ithr w
  = (Ok image, after_calls (flat_map (visualize_calls image col kthr ithr) persons) w).
Proof.
  intros H17 Hload Hw. unfold visualize.
  assert (for_each (draw_person image col kthr ithr) persons w
          = (Ok tt, after_calls (flat_map (visualize_calls image col kthr ithr) persons) w))
    as Hloop.
  { revert w Hload Hw. induction H17 as [|p persons Hp _ IH]; intros w Hload Hw.
    - cbn [for_each flat_map]. rewrite after_calls_nil. reflexivity.
    - cbn [for_each flat_map].
      erewrite bind_run by (apply draw_person_run; assumption).
      rewrite after_calls_app. apply IH.
      + exact Hload.
      + apply after_calls_bound, Hw. }
  erewrite bind_run by exact Hloop. reflexivity.
Qed.

Lemma visualize_skips (image : loc) (persons : list Person.t) (col : color)
    (kthr ithr : spec_float) (w : world) :
  Forall (fun p => flt (Person.score p) ithr = true) persons ->
  visualize image persons col kthr ithr w = (Ok image, w).
Proof.
  intros Hlow. unfold visualize.
  assert (for_each (draw_person image col kthr ithr) persons w = (Ok tt, w)) as Hloop.
  { induction Hlow as [|p persons Hp _ IH]; [reflexivity|].
    cbn [for_each]. erewrite bind_run; [exact IH|].
    unfold draw_person. rewrite Hp. reflexivity. }
  erewrite bind_run by exact Hloop. reflexivity.
Qed.

End Drawing.

(** ** Frame conditions of the two functions *)

Section Frames.

Context {cv : Cv2}.

#[local] Instance same_table_preorder : PreOrder same_table.
Proof.
  split; [intros w; reflexivity|]. intros x y z Hxy Hyz. unfold same_table in *. congruence.
Qed.

#[local] Instance heap_grows_preorder : PreOrder heap_grows.
Proof.
  split; [intros w; unfold heap_grows; reflexivity|].
  intros x y z Hxy Hyz. unfold heap_grows in *. etransitivity; eassumption.
Qed.

Lemma respects_ret (R : relation world) `{!PreOrder R} {A : Type} (a : A) :
  respects R (mret a : M A).
Proof. intros w. reflexivity. Qed.

Lemma respects_lift (R : relation world) `{!PreOrder R} {A : Type} (r : res A) :
  respects R (lift r).
Proof. intros w. reflexivity. Qed.

Lemma respects_read (R : relation world) `{!PreOrder R} (l : loc) : respects R (read l).
Proof. intros w. unfold read. destruct (heap w !! l); reflexivity. Qed.

Lemma respects_get_edge_colors (R : relation world) `{!PreOrder R} :
  respects R get_edge_colors.
Proof. intros w. reflexivity. Qed.

Lemma respects_bind (R : relation world) `{!PreOrder R} {A B : Type} (m : M A)
    (f : A -> M B) :
  respects R m -> (forall a, respects R (f a)) -> respects R (m ≫= f).
Proof.
  intros Hm Hf w. specialize (Hm w). unfold mbind, M_bind.
  destruct (m w) as [[a|e] w']; cbn [snd] in *; [|exact Hm].
  etransitivity; [exact Hm | apply Hf].
Qed.

Lemma respects_for_each (R : relation world) `{!PreOrder R} {A : Type} (body : A -> M unit)
    (l : list A) :
  (forall x, respects R (body x)) -> respects R (for_each body l).
Proof.
  intros Hbody. induction l as [|x l IH]; cbn [for_each].
  - apply respects_ret; assumption.
  - apply respects_bind; [assumption | apply Hbody | intros _; exact IH].
Qed.

Lemma respects_cv2_resize (R : relation world) `{!PreOrder R} (src : loc) (dsize : Z * Z) :
  (forall a, respects R (alloc a)) -> (forall c, respects R (log c)) ->
  respects R (cv2_resize src dsize).
Proof.
  intros Halloc Hlog. unfold cv2_resize.
  apply respects_bind; [assumption | apply respects_read; assumption | intros a].
  destruct (_ && _); [|apply respects_lift; assumption].
  apply respects_bind; [assumption | apply Halloc | intros dst].
  apply respects_bind; [assumption | apply Hlog | intros _].
  apply respects_ret; assumption.
Qed.

Lemma respects_cv2_copyMakeBorder (R : relation world) `{!PreOrder R} (src : loc)
    (top bottom left right : Z) :
  (forall a, respects R (alloc a)) -> (forall c, respects R (log c)) ->
  respects R (cv2_copyMakeBorder src top bottom left right).
Proof.
  intros Halloc Hlog. unfold cv2_copyMakeBorder.
  apply respects_bind; [assumption | apply respects_read; assumption | intros a].
  destruct (_ && _); [|apply respects_lift; assumption].
  apply respects_bind; [assumption | apply Halloc | intros dst].
  apply respects_bind; [assumption | apply Hlog | intros _].
  apply respects_ret; assumption.
Qed.

Lemma respects_resizer (R : relation world) `{!PreOrder R} (image : loc) (target_size : Z) :
  (forall a, respects R (alloc a)) -> (forall c, respects R (log c)) ->
  respects R (keep_aspect_ratio_resizer image target_size).
Proof.
  intros Halloc Hlog. unfold keep_aspect_ratio_resizer.
  apply respects_bind; [assumption | apply respects_read; assumption | intros a]. cbv zeta.
  apply respects_bind; [assumption | | intros [image' [th tw]]].
  - destruct (cols a <? rows a).
    all: apply respects_bind; [assumption | apply respects_lift; assumption | intros scale].
    all: apply respects_bind; [assumption | apply respects_lift; assumption | intros x].
    all: apply respects_bind; [assumption | apply respects_lift; assumption | intros s].
    all: apply respects_bind;
      [assumption | apply respects_cv2_resize; assumption | intros image'].
    all: apply respects_bind; [assumption | apply respects_lift; assumption | intros q].
    all: apply respects_bind; [assumption | apply respects_lift; assumption | intros c].
    all: apply respects_ret; assumption.
  - apply respects_bind; [assumption | apply respects_read; assumption | intros b].
    apply respects_bind;
      [assumption | apply respects_cv2_copyMakeBorder; assumption | intros out].
    apply respects_ret; assumption.
Qed.

Lemma respects_cv2_circle (R : relation world) `{!PreOrder R} (img : loc) (center : point)
    (radius : Z) (col : color) (thickness : Z) :
  (forall l a, respects R (write l a)) -> (forall c, respects R (log c)) ->
  respects R (cv2_circle img center radius col thickness).
Proof.
  intros Hwrite Hlog. unfold cv2_circle.
  apply respects_bind; [assumption | apply respects_read; assumption | intros a].
  apply respects_bind; [assumption | apply Hwrite | intros _]. apply Hlog.
Qed.

Lemma respects_cv2_line (R : relation world) `{!PreOrder R} (img : loc) (pt1 pt2 : point)
    (col : color) (thickness : Z) :
  (forall l a, respects R (write l a)) -> (forall c, respects R (log c)) ->
  respects R (cv2_line img pt1 pt2 col thickness).
Proof.
  intros Hwrite Hlog. unfold cv2_line.
  apply respects_bind; [assumption | apply respects_read; assumption | intros a].
  apply respects_bind; [assumption | apply Hwrite | intros _]. apply Hlog.
Qed.

Lemma respects_visualize (R : relation world) `{!PreOrder R} (image : loc)
    (persons : list Person.t) (col : color) (kthr ithr : spec_float) :
  (forall l a, respects R (write l a)) -> (forall c, respects R (log c)) ->
  respects R (visualize image persons col kthr ithr).
Proof.
  intros Hwrite Hlog. unfold visualize.
  apply respects_bind; [assumption | | intros _; apply respects_ret; assumption].
  apply respects_for_each; [assumption|]. intros person. unfold draw_person.
  destruct (flt _ _); [apply respects_ret; assumption|].
  apply respects_bind; [assumption | | intros _].
  - apply respects_for_each; [assumption|]. intros i. unfold draw_landmark.
    apply respects_bind; [assumption | apply respects_lift; assumption | intros kp].
    destruct (fle _ _); [|apply respects_ret; assumption].
    apply respects_cv2_circle; assumption.
  - apply respects_bind;
      [assumption | apply respects_get_edge_colors; assumption | intros table].
    apply respects_for_each; [assumption|]. intros entry. unfold draw_edge.
    apply respects_bind; [assumption | apply respects_lift; assumption | intros k0].
    destruct (flt _ _); [|apply respects_ret; assumption].
    apply respects_bind; [assumption | apply respects_lift; assumption | intros k1].
    destruct (flt _ _); [|apply respects_ret; assumption].
    apply respects_cv2_line; assumption.
Qed.

Lemma alloc_same_table (a : ndarray) : respects same_table (alloc a).
Proof. intros w. reflexivity. Qed.

Lemma write_same_table (l : loc) (a : ndarray) : respects same_table (write l a).
Proof. intros w. reflexivity. Qed.

Lemma log_same_table (c : cv2_call) : respects same_table (log c).
Proof. intros w. reflexivity. Qed.

Lemma fresh_unbound (h : gmap loc ndarray) : h !! fresh (dom h) = None.
Proof. apply not_elem_of_dom, is_fresh. Qed.

Lemma alloc_heap_grows (a : ndarray) : respects heap_grows (alloc a).
Proof.
  intros w. unfold heap_grows, alloc. cbn [snd heap].
  apply insert_subseteq, fresh_unbound.
Qed.

Lemma log_heap_grows (c : cv2_call) : respects heap_grows (log c).
Proof. intros w. unfold heap_grows. reflexivity. Qed.

End Frames.

(** ** The outcome of the resizer *)

Section ResizerOutcome.

Context {cv : Cv2}.

Lemma fresh_insert_ne (h : gmap loc ndarray) (l : loc) (a : ndarray) :
  fresh (dom (<[l := a]> h)) ≠ l.
Proof.
  intros E. pose proof (is_fresh (dom (<[l := a]> h))) as Hf. rewrite E in Hf.
  apply Hf, elem_of_dom. rewrite lookup_insert_eq. eauto.
Qed.

Lemma fresh_insert_unbound (h : gmap loc ndarray) (l : loc) (a : ndarray) :
  h !! fresh (dom (<[l := a]> h)) = None.
Proof.
  pose proof (fresh_unbound (<[l := a]> h)) as Hf.
  rewrite lookup_insert_ne in Hf by (intros E; exact (fresh_insert_ne h l a (eq_sym E))).
  exact Hf.
Qed.

Lemma bordered_inside (a : ndarray) (bottom right i j k : Z) :
  0 <= i < rows a -> 0 <= j < cols a ->
  item (bordered a 0 bottom 0 right) i j k = item a i j k.
Proof.
  intros Hi Hj. cbn [item bordered].
  assert (((0 <=? i) && (i <? 0 + rows a) && (0 <=? j) && (j <? 0 + cols a)) = true) as ->
    by (rewrite !andb_true_iff, !Z.leb_le, !Z.ltb_lt; lia).
  rewrite !Z.sub_0_r. reflexivity.
Qed.

Lemma bordered_outside (a : ndarray) (bottom right i j k : Z) :
  ~ (0 <= i < rows a /\ 0 <= j < cols a) ->
  item (bordered a 0 bottom 0 right) i j k = 0.
Proof.
  intros Hout. cbn [item bordered].
  destruct ((0 <=? i) && (i <? 0 + rows a) && (0 <=? j) && (j <? 0 + cols a)) eqn:E;
    [|reflexivity].
  rewrite !andb_true_iff, !Z.leb_le, !Z.ltb_lt in E. lia.
Qed.

(** For an allocated image with C-int sides the call returns; it allocates
    the resized array [ar] at [r] and the padded one at [o], in that order. *)
Lemma resizer_outcome (image : loc) (target_size : Z) (w : world) (a : ndarray) :
  heap w !! image = Some a ->
  int_sized (rows a) -> int_sized (cols a) -> int_sized target_size ->
  exists s r o ar th tw w',
    keep_aspect_ratio_resizer image target_size w = (Ok (o, (th, tw)), w')
    /\ (if cols a <? rows a
        then scaled_side (cols a) target_size (rows a) = Ok s
             /\ rows ar = target_size /\ cols ar = s
             /\ th = target_size /\ tw = round_up_32 s
        else scaled_side (rows a) target_size (cols a) = Ok s
             /\ rows ar = s /\ cols ar = target_size
             /\ th = round_up_32 s /\ tw = target_size)
    /\ 1 <= s <= target_size + 1
    /\ ar = resized a (cols ar) (rows ar)
    /\ r = fresh (dom (heap w))
    /\ o = fresh (dom (<[r := ar]> (heap w)))
    /\ heap w' = <[o := bordered ar 0 (th - rows ar) 0 (tw - cols ar)]> (<[r := ar]> (heap w))
    /\ trace w' = trace w ++ [Resize image (cols ar, rows ar) r;
                              CopyMakeBorder r 0 (th - rows ar) 0 (tw - cols ar) o]
    /\ edge_colors w' = edge_colors w.
Proof.
  intros Himg Hr Hc Ht.
  destruct (keep_aspect_ratio_resizer_run image target_size w a Himg Hr Hc Ht)
    as (s & rh & rw & th & tw & Hs & Hbr & Hrun).
  cbv zeta in Hrun.
  eexists s, _, _, (resized a rw rh), th, tw, _.
  split; [exact Hrun|]. cbn [heap trace edge_colors rows cols resized].
  split.
  { destruct (cols a <? rows a); destruct Hbr as (E & -> & -> & -> & ->); auto. }
  split; [exact Hs|]. repeat (split; [reflexivity|]).
  split; [|reflexivity]. rewrite <- app_assoc. reflexivity.
Qed.

End ResizerOutcome.

(** ** Properties of [keep_aspect_ratio_resizer] *)

Section ResizerProperties.

Context {cv : Cv2}.

(** When [target_size] is itself a multiple of 32, both sides of the
    returned image are multiples of 32 and equal the returned pair. *)
Lemma resizer_dims_for_aligned_target (image : loc) (target_size : Z) (w : world)
    (a : ndarray) :
  heap w !! image = Some a ->
  int_sized (rows a) -> int_sized (cols a) -> int_sized target_size ->
  multiple_of_32 target_size ->
  exists o ao th tw w',
    keep_aspect_ratio_resizer image target_size w = (Ok (o, (th, tw)), w')
    /\ heap w' !! o = Some ao
    /\ rows ao = th /\ cols ao = tw
    /\ multiple_of_32 th /\ multiple_of_32 tw.
Proof.
  intros Himg Hr Hc Ht H32.
  destruct (resizer_outcome image target_size w a Himg Hr Hc Ht)
    as (s & r & o & ar & th & tw & w' & Hrun & Hbr & Hs & Har & Er & Eo & Hheap & _).
  exists o, (bordered ar 0 (th - rows ar) 0 (tw - cols ar)), th, tw, w'.
  split; [exact Hrun|]. split; [rewrite Hheap; apply lookup_insert_eq|].
  cbn [rows cols bordered]. split; [lia|]. split; [lia|].
  pose proof (round_up_32_smallest s) as (Hm & _).
  destruct (cols a <? rows a); destruct Hbr as (_ & _ & _ & -> & ->); auto.
Qed.

(** C5: the padding is added at the bottom and at the right only, by
    [target_height - resized_height] rows and [target_width - resized_width]
    columns of zeros; the top and left amounts are zero and the resized image
    occupies the top-left region of the result unchanged. *)
Theorem resizer_pads_bottom_and_right (image : loc) (target_size : Z) (w : world)
    (a : ndarray) :
  heap w !! image = Some a ->
  int_sized (rows a) -> int_sized (cols a) -> int_sized target_size ->
  exists r o resized_image padded target_height target_width w',
    keep_aspect_ratio_resizer image target_size w
    = (Ok (o, (target_height, target_width)), w')
    /\ trace w' = trace w ++
         [Resize image (cols resized_image, rows resized_image) r;
          CopyMakeBorder r 0 (target_height - rows resized_image)
                           0 (target_width - cols resized_image) o]
    /\ resized_image = resized a (cols resized_image) (rows resized_image)
    /\ heap w' !! r = Some resized_image
    /\ heap w' !! o = Some padded
    /\ rows padded = target_height /\ cols padded = target_width
    /\ (forall i j k, 0 <= i < rows resized_image -> 0 <= j < cols resized_image ->
                      item padded i j k = item resized_image i j k)
    /\ (forall i j k, 0 <= i < target_height -> 0 <= j < target_width ->
                      ~ (i < rows resized_image /\ j < cols resized_image) ->
                      item padded i j k = 0).
Proof.
  intros Himg Hr Hc Ht.
  destruct (resizer_outcome image target_size w a Himg Hr Hc Ht)
    as (s & r & o & ar & th & tw & w' & Hrun & Hbr & Hs & Har & Er & Eo & Hheap & Htr & _).
  exists r, o, ar, (bordered ar 0 (th - rows ar) 0 (tw - cols ar)), th, tw, w'.
  split; [exact Hrun|]. split; [exact Htr|]. split; [exact Har|].
  split.
  { rewrite Hheap, lookup_insert_ne by (rewrite Eo; apply fresh_insert_ne).
    apply lookup_insert_eq. }
  split; [rewrite Hheap; apply lookup_insert_eq|].
  split; [cbn [rows bordered]; lia|]. split; [cbn [cols bordered]; lia|].
  split.
  - intros i j k Hi Hj. apply bordered_inside; assumption.
  - intros i j k Hi Hj Hout. apply bordered_outside. lia.
Qed.

(** C6: a 100 x 200 image with [target_size = 256] takes the branch for
    width > height, with [scale] the binary64 value of 1.28; the image is
    resized to 128 rows by 256 columns, padded by zero rows and zero columns,
    and returned with the pair [(128, 256)]. *)
Theorem resizer_100x200_target_256 (image : loc) (w : world) (a : ndarray) :
  heap w !! image = Some a -> rows a = 100 -> cols a = 200 ->
  (cols a <? rows a) = false
  /\ int_truediv 256 (cols a) = Ok (S754_finite false 5764607523034235 (-52))
  /\ int_truediv 128 100 = Ok (S754_finite false 5764607523034235 (-52))
  /\ exists r o padded w',
       keep_aspect_ratio_resizer image 256 w = (Ok (o, (128, 256)), w')
       /\ trace w' = trace w ++ [Resize image (256, 128) r; CopyMakeBorder r 0 0 0 0 o]
       /\ heap w' !! o = Some padded
       /\ rows padded = 128 /\ cols padded = 256.
Proof.
  intros Himg Hrows Hcols.
  destruct (resizer_outcome image 256 w a Himg)
    as (s & r & o & ar & th & tw & w' & Hrun & Hbr & Hs & Har & Er & Eo & Hheap & Htr & _);
    [rewrite ?Hrows, ?Hcols; unfold int_sized; lia ..|].
  rewrite Hrows, Hcols in *.
  split; [reflexivity|]. split; [vm_compute; reflexivity|].
  split; [vm_compute; reflexivity|].
  change (200 <? 100) with false in Hbr. cbv iota in Hbr.
  destruct Hbr as (Es & Hrar & Hcar & -> & ->).
  assert (scaled_side 100 256 200 = Ok 128) as Es' by (vm_compute; reflexivity).
  rewrite Es' in Es. injection Es as <-.
  change (round_up_32 128) with 128 in *.
  rewrite Hrar, Hcar in *. change (128 - 128) with 0 in *. change (256 - 256) with 0 in *.
  exists r, o, (bordered ar 0 0 0 0), w'.
  split; [exact Hrun|]. split; [exact Htr|].
  split; [rewrite Hheap; apply lookup_insert_eq|].
  cbn [rows cols bordered]. rewrite Hrar, Hcar. split; reflexivity.
Qed.

(** C7: the caller's array is not touched: after the call the input
    reference still designates the same array, as does every reference that
    was bound before; the resize step and the padding step each allocate a
    reference that did not exist before. *)
Theorem resizer_leaves_input_unchanged (image : loc) (target_size : Z) (w : world)
    (a : ndarray) :
  heap w !! image = Some a ->
  int_sized (rows a) -> int_sized (cols a) -> int_sized target_size ->
  exists r o dsize bottom right dims w',
    keep_aspect_ratio_resizer image target_size w = (Ok (o, dims), w')
    /\ heap w' !! image = Some a
    /\ (forall l b, heap w !! l = Some b -> heap w' !! l = Some b)
    /\ trace w' = trace w ++ [Resize image dsize r; CopyMakeBorder r 0 bottom 0 right o]
    /\ heap w !! r = None /\ heap w !! o = None
    /\ r <> image /\ o <> image /\ o <> r
    /\ only_allocates (keep_aspect_ratio_resizer image target_size).
Proof.
  intros Himg Hr Hc Ht.
  destruct (resizer_outcome image target_size w a Himg Hr Hc Ht)
    as (s & r & o & ar & th & tw & w' & Hrun & Hbr & Hs & Har & Er & Eo & Hheap & Htr & _).
  assert (heap w !! r = None) as Hrnew by (rewrite Er; apply fresh_unbound).
  assert (heap w !! o = None) as Honew by (rewrite Eo; apply fresh_insert_unbound).
  assert (forall l b, heap w !! l = Some b -> heap w' !! l = Some b) as Hkept.
  { intros l b Hl. rewrite Hheap, !lookup_insert_ne by congruence. exact Hl. }
  exists r, o, (cols ar, rows ar), (th - rows ar), (tw - cols ar), (th, tw), w'.
  split; [exact Hrun|]. split; [apply Hkept, Himg|]. split; [exact Hkept|].
  split; [exact Htr|]. split; [exact Hrnew|]. split; [exact Honew|].
  split; [congruence|]. split; [congruence|].
  split; [rewrite Eo; apply fresh_insert_ne|].
  apply respects_resizer; [apply heap_grows_preorder | apply alloc_heap_grows
                          | apply log_heap_grows].
Qed.

(** C10: the two padding amounts handed to [cv2.copyMakeBorder] are not
    negative: the target height is at least the resized image's height and
    the target width at least its width, and the call goes through. *)
Theorem resizer_padding_nonnegative (image : loc) (target_size : Z) (w : world)
    (a : ndarray) :
  heap w !! image = Some a ->
  int_sized (rows a) -> int_sized (cols a) -> int_sized target_size ->
  exists r o resized_image target_height target_width w',
    keep_aspect_ratio_resizer image target_size w
    = (Ok (o, (target_height, target_width)), w')
    /\ heap w' !! r = Some resized_image
    /\ 0 < rows resized_image <= target_height
    /\ 0 < cols resized_image <= target_width
    /\ last (trace w')
       = Some (CopyMakeBorder r 0 (target_height - rows resized_image)
                                0 (target_width - cols resized_image) o)
    /\ 0 <= target_height - rows resized_image
    /\ 0 <= target_width - cols resized_image.
Proof.
  intros Himg Hr Hc Ht.
  destruct (resizer_outcome image target_size w a Himg Hr Hc Ht)
    as (s & r & o & ar & th & tw & w' & Hrun & Hbr & Hs & Har & Er & Eo & Hheap & Htr & _).
  pose proof (round_up_32_smallest s) as (_ & Hge & _).
  unfold int_sized in Ht.
  assert (0 < rows ar <= th /\ 0 < cols ar <= tw) as [Hrows Hcols].
  { destruct (cols a <? rows a); destruct Hbr as (_ & -> & -> & -> & ->); lia. }
  exists r, o, ar, th, tw, w'.
  split; [exact Hrun|].
  split.
  { rewrite Hheap, lookup_insert_ne by (rewrite Eo; apply fresh_insert_ne).
    apply lookup_insert_eq. }
  split; [exact Hrows|]. split; [exact Hcols|].
  split; [|lia]. rewrite Htr.
  change [Resize image (cols ar, rows ar) r;
          CopyMakeBorder r 0 (th - rows ar) 0 (tw - cols ar) o]
    with ([Resize image (cols ar, rows ar) r]
          ++ [CopyMakeBorder r 0 (th - rows ar) 0 (tw - cols ar) o]).
  rewrite app_assoc. apply last_snoc.
Qed.

End ResizerProperties.

(** ** Properties of [visualize] and of the edge table *)

Section VisualizeProperties.

Context {cv : Cv2}.

(** C3: for persons with 17 keypoints, [visualize] makes exactly the calls
    of [visualize_calls], person by person; a person whose score reaches
    [instance_threshold] gets the calls of [person_calls]: for each keypoint
    a circle exactly when its score is at least [keypoint_threshold] (so a
    score equal to the threshold is drawn), and for each edge of the table a
    line exactly when both end points' scores exceed the threshold (so an
    edge whose two scores equal the threshold is not drawn). *)
Theorem visualize_draws_by_threshold (image : loc) (list_persons : list Person.t)
    (keypoint_color : color) (keypoint_threshold instance_threshold : spec_float)
    (w : world) :
  module_loaded w -> bound image w -> Forall has_17_keypoints list_persons ->
  visualize image list_persons keypoint_color keypoint_threshold instance_threshold w
  = (Ok image,
     after_calls
       (flat_map (visualize_calls image keypoint_color keypoint_threshold
                    instance_threshold) list_persons) w)
  /\ (forall person,
        fle instance_threshold (Person.score person) = true ->
        visualize_calls image keypoint_color keypoint_threshold instance_threshold person
        = flat_map (landmark_calls image keypoint_color keypoint_threshold)
            (Person.keypoints person)
          ++ table_calls image keypoint_threshold (Person.keypoints person)
               KEYPOINT_EDGE_INDS_TO_COLOR)
  /\ (forall kp,
        landmark_calls image keypoint_color keypoint_threshold kp
        = [Circle image (KeyPoint.coordinate kp) 2 keypoint_color 4]
        <-> fle keypoint_threshold (KeyPoint.score kp) = true)
  /\ (forall kp,
        landmark_calls image keypoint_color keypoint_threshold kp = []
        <-> fle keypoint_threshold (KeyPoint.score kp) = false)
  /\ (forall k0 k1 col,
        edge_calls image keypoint_threshold k0 k1 col
        = [Line image (KeyPoint.coordinate k0) (KeyPoint.coordinate k1) col 2]
        <-> flt keypoint_threshold (KeyPoint.score k0) = true
            /\ flt keypoint_threshold (KeyPoint.score k1) = true)
  /\ (forall k0 k1 col,
        edge_calls image keypoint_threshold k0 k1 col = []
        <-> ~ (flt keypoint_threshold (KeyPoint.score k0) = true
               /\ flt keypoint_threshold (KeyPoint.score k1) = true))
  /\ (forall kp,
        feq (KeyPoint.score kp) keypoint_threshold = true ->
        landmark_calls image keypoint_color keypoint_threshold kp
        = [Circle image (KeyPoint.coordinate kp) 2 keypoint_color 4])
  /\ (forall k0 k1 col,
        feq (KeyPoint.score k0) keypoint_threshold = true ->
        feq (KeyPoint.score k1) keypoint_threshold = true ->
        edge_calls image keypoint_threshold k0 k1 col = []).
Proof.
  intros Hload Hbound H17.
  split; [apply visualize_run; assumption|].
  split.
  { intros person Hscore. unfold visualize_calls.
    rewrite (fle_not_flt _ _ Hscore). reflexivity. }
  split.
  { intros kp. unfold landmark_calls.
    destruct (fle keypoint_threshold (KeyPoint.score kp)); split; congruence. }
  split.
  { intros kp. unfold landmark_calls.
    destruct (fle keypoint_threshold (KeyPoint.score kp)); split; congruence. }
  split.
  { intros k0 k1 col. unfold edge_calls.
    destruct (flt keypoint_threshold (KeyPoint.score k0)),
             (flt keypoint_threshold (KeyPoint.score k1)); cbn [andb];
      split; try congruence; try tauto; intros [? ?]; congruence. }
  split.
  { intros k0 k1 col. unfold edge_calls.
    destruct (flt keypoint_threshold (KeyPoint.score k0)),
             (flt keypoint_threshold (KeyPoint.score k1)); cbn [andb];
      split; try congruence; try tauto; intros H; try reflexivity;
      try (exfalso; apply H; split; reflexivity);
      intros [? ?]; congruence. }
  split.
  { intros kp Heq. unfold landmark_calls. rewrite (feq_fle _ _ Heq). reflexivity. }
  intros k0 k1 col Heq0 Heq1. unfold edge_calls.
  rewrite (feq_not_flt _ _ Heq0). reflexivity.
Qed.

(** C4: when every person's score is below [instance_threshold],
    [visualize] makes no call at all: it returns the reference it was given
    and the state, hence every pixel of the image, is as before. *)
Theorem visualize_below_instance_threshold (image : loc) (list_persons : list Person.t)
    (keypoint_color : color) (keypoint_threshold instance_threshold : spec_float)
    (w : world) :
  Forall (fun person => flt (Person.score person) instance_threshold = true) list_persons ->
  visualize image list_persons keypoint_color keypoint_threshold instance_threshold w
  = (Ok image, w).
Proof. apply visualize_skips. Qed.

(** C9: with an empty list of persons [visualize] makes no call and returns
    the very reference it was given, in an unchanged state. *)
Theorem visualize_no_persons (image : loc) (keypoint_color : color)
    (keypoint_threshold instance_threshold : spec_float) (w : world) :
  visualize image [] keypoint_color keypoint_threshold instance_threshold w
  = (Ok image, w).
Proof. reflexivity. Qed.

(** C8: the table has 18 entries with pairwise distinct keys, both indices
    of every key lie in 0..16, and neither function changes the table,
    whatever its arguments and whether it returns or raises. *)
Theorem edge_table_invariant :
  length KEYPOINT_EDGE_INDS_TO_COLOR = 18%nat
  /\ NoDup (fst <$> KEYPOINT_EDGE_INDS_TO_COLOR)
  /\ Forall (fun entry => 0 <= fst (fst entry) <= 16 /\ 0 <= snd (fst entry) <= 16)
       KEYPOINT_EDGE_INDS_TO_COLOR
  /\ (forall image list_persons keypoint_color keypoint_threshold instance_threshold,
        keeps_table (visualize image list_persons keypoint_color keypoint_threshold
                       instance_threshold))
  /\ (forall image target_size,
        keeps_table (keep_aspect_ratio_resizer image target_size)).
Proof.
  split; [reflexivity|]. split; [exact table_keys_distinct|].
  split.
  { eapply Forall_impl; [exact table_in_range|].
    intros entry [H0 H1]. lia. }
  split.
  - intros. apply respects_visualize;
      [apply same_table_preorder | apply write_same_table | apply log_same_table].
  - intros. apply respects_resizer;
      [apply same_table_preorder | apply alloc_same_table | apply log_same_table].
Qed.

End VisualizeProperties.

(** ** Runs on sample inputs *)

Section Samples.

#[local] Existing Instance sample_cv2.

(** The default thresholds are the floats the literals [0.05] and [0.1]
    denote. *)
Lemma default_thresholds_literals :
  int_truediv 5 100 = Ok default_keypoint_threshold
  /\ int_truediv 1 10 = Ok default_instance_threshold.
Proof. split; vm_compute; reflexivity. Qed.

(** C1 (the code departs from its docstring): a 200 x 100 image with
    [target_size = 100] comes back 100 rows by 64 columns, with the pair
    [(100, 64)]; the height 100 is not a multiple of 32. *)
Theorem resizer_200x100_target_100 :
  let run := keep_aspect_ratio_resizer (cv := sample_cv2) 1%positive 100
               (sample_world 200 100) in
  returned_dims run = Some (100, 64)
  /\ returned_shape run = Some (100, 64)
  /\ ~ multiple_of_32 100.
Proof.
  split; [vm_compute; reflexivity|]. split; [vm_compute; reflexivity|].
  intros [k Hk]. lia.
Qed.


Lemma resizer_pads_bottom_and_right_witness :
  let image := 1%positive in
  let target_size := 256 in
  let w := sample_world 364 273 in
  let a := sample_image 364 273 in
  exists r o resized_image padded target_height target_width w',
    keep_aspect_ratio_resizer (cv := sample_cv2) image target_size w
    = (Ok (o, (target_height, target_width)), w')
    /\ trace w' = trace w ++
         [Resize image (cols resized_image, rows resized_image) r;
          CopyMakeBorder r 0 (target_height - rows resized_image)
                           0 (target_width - cols resized_image) o]
    /\ resized_image = resized a (cols resized_image) (rows resized_image)
    /\ heap w' !! r = Some resized_image
    /\ heap w' !! o = Some padded
    /\ rows padded = target_height /\ cols padded = target_width
    /\ (forall i j k, 0 <= i < rows resized_image -> 0 <= j < cols resized_image ->
                      item padded i j k = item resized_image i j k)
    /\ (forall i j k, 0 <= i < target_height -> 0 <= j < target_width ->
                      ~ (i < rows resized_image /\ j < cols resized_image) ->
                      item padded i j k = 0).
Proof.
  intros image target_size w a.
  apply (resizer_pads_bottom_and_right (cv := sample_cv2) image target_size w a).
  - reflexivity.
  - unfold int_sized. simpl. lia.
  - unfold int_sized. simpl. lia.
  - unfold int_sized, target_size. lia.
Defined.

Lemma resizer_100x200_target_256_witness :
  let image := 1%positive in
  let w := sample_world 100 200 in
  let a := sample_image 100 200 in
  (cols a <? rows a) = false
  /\ int_truediv 256 (cols a) = Ok (S754_finite false 5764607523034235 (-52))
  /\ int_truediv 128 100 = Ok (S754_finite false 5764607523034235 (-52))
  /\ exists r o padded w',
       keep_aspect_ratio_resizer (cv := sample_cv2) image 256 w
       = (Ok (o, (128, 256)), w')
       /\ trace w' = trace w ++ [Resize image (256, 128) r; CopyMakeBorder r 0 0 0 0 o]
       /\ heap w' !! o = Some padded
       /\ rows padded = 128 /\ cols padded = 256.
Proof.
  intros image w a.
  apply (resizer_100x200_target_256 (cv := sample_cv2) image w a); reflexivity.
Defined.

Lemma resizer_leaves_input_unchanged_witness :
  let image := 1%positive in
  let target_size := 256 in
  let w := sample_world 100 200 in
  let a := sample_image 100 200 in
  exists r o dsize bottom right dims w',
    keep_aspect_ratio_resizer (cv := sample_cv2) image target_size w = (Ok (o, dims), w')
    /\ heap w' !! image = Some a
    /\ (forall l b, heap w !! l = Some b -> heap w' !! l = Some b)
    /\ trace w' = trace w ++ [Resize image dsize r; CopyMakeBorder r 0 bottom 0 right o]
    /\ heap w !! r = None /\ heap w !! o = None
    /\ r <> image /\ o <> image /\ o <> r
    /\ only_allocates (keep_aspect_ratio_resizer (cv := sample_cv2) image target_size).
Proof.
  intros image target_size w a.
  apply (resizer_leaves_input_unchanged (cv := sample_cv2) image target_size w a).
  - reflexivity.
  - unfold int_sized. simpl. lia.
  - unfold int_sized. simpl. lia.
  - unfold int_sized, target_size. lia.
Defined.

Lemma resizer_padding_nonnegative_witness :
  let image := 1%positive in
  let target_size := 100 in
  let w := sample_world 200 100 in
  let a := sample_image 200 100 in
  exists r o resized_image target_height target_width w',
    keep_aspect_ratio_resizer (cv := sample_cv2) image target_size w
    = (Ok (o, (target_height, target_width)), w')
    /\ heap w' !! r = Some resized_image
    /\ 0 < rows resized_image <= target_height
    /\ 0 < cols resized_image <= target_width
    /\ last (trace w')
       = Some (CopyMakeBorder r 0 (target_height - rows resized_image)
                                0 (target_width - cols resized_image) o)
    /\ 0 <= target_height - rows resized_image
    /\ 0 <= target_width - cols resized_image.
Proof.
  intros image target_size w a.
  apply (resizer_padding_nonnegative (cv := sample_cv2) image target_size w a).
  - reflexivity.
  - unfold int_sized. simpl. lia.
  - unfold int_sized. simpl. lia.
  - unfold int_sized, target_size. lia.
Defined.

Lemma visualize_draws_by_threshold_witness :
  let image := 1%positive in
  let list_persons :=
    [sample_person default_keypoint_threshold default_instance_threshold] in
  let keypoint_color := default_keypoint_color in
  let keypoint_threshold := default_keypoint_threshold in
  let instance_threshold := default_instance_threshold in
  let w := sample_world 100 200 in
  (module_loaded w /\ bound image w /\ Forall has_17_keypoints list_persons)
  /\ visualize (cv := sample_cv2) image list_persons keypoint_color keypoint_threshold
       instance_threshold w
     = (Ok image,
        after_calls (cv := sample_cv2)
          (flat_map (visualize_calls image keypoint_color keypoint_threshold
                       instance_threshold) list_persons) w).
Proof.
  intros image list_persons keypoint_color keypoint_threshold instance_threshold w.
  assert (module_loaded w) as Hload by reflexivity.
  assert (bound image w) as Hbound by (exists (sample_image 100 200); reflexivity).
  assert (Forall has_17_keypoints list_persons) as H17
    by (repeat constructor).
  split; [auto|].
  exact (proj1 (visualize_draws_by_threshold (cv := sample_cv2) image list_persons
                  keypoint_color keypoint_threshold instance_threshold w
                  Hload Hbound H17)).
Defined.

Lemma visualize_below_instance_threshold_witness :
  let image := 1%positive in
  let list_persons :=
    [sample_person default_instance_threshold default_keypoint_threshold] in
  let w := sample_world 100 200 in
  Forall (fun person => flt (Person.score person) default_instance_threshold = true)
    list_persons
  /\ visualize (cv := sample_cv2) image list_persons default_keypoint_color
       default_keypoint_threshold default_instance_threshold w
     = (Ok image, w).
Proof.
  intros image list_persons w.
  assert (Forall (fun person => flt (Person.score person) default_instance_threshold = true)
            list_persons) as Hlow by (repeat constructor).
  split; [exact Hlow|].
  exact (visualize_below_instance_threshold (cv := sample_cv2) image list_persons
           default_keypoint_color default_keypoint_threshold default_instance_threshold
           w Hlow).
Defined.

End Samples.

(** ** Two-sided rounding bounds *)

Section RoundingBounds.

Lemma binary_round_aux_two_sided (sx : bool) (p : positive) (ez : Z) (lz : location) :
  let d := Z.pos (digits2_pos p) in
  53 <= d -> -1021 <= d + ez <= 1023 ->
  exists m e,
    binary_round_aux prec emax sx (Z.pos p) ez lz = S754_finite sx m e
    /\ normal53 m /\ ez + (d - 53) <= e <= ez + (d - 53) + 1
    /\ (inject_Z (Z.pos p) * 2 ^ ez * rnd_down <= F2Q m e
        <= inject_Z (Z.pos p) * 2 ^ ez * rnd_up)%Q.
Proof.
  intros d Hd He.
  destruct (binary_round_aux_upper sx p ez lz Hd He) as (m & e & E & Hm & Hex & Hup).
  destruct (binary_round_aux_normal sx p ez lz Hd He) as (m' & e' & E' & _ & _ & Hlo & _).
  rewrite E in E'. injection E' as <- <-.
  fold d in Hex, Hlo. exists m, e.
  split; [exact E|]. split; [exact Hm|]. split; [exact Hex|]. split; [|exact Hup].
  eapply Qle_trans; [|exact Hlo].
  pose proof (top53_bounds p Hd) as [Hm0 _]. fold d in Hm0.
  set (m0 := Z.pos p / 2 ^ (d - 53)) in *.
  assert (0 < 2 ^ (d - 53)) as Hpos by (apply Z.pow_pos_nonneg; lia).
  assert (Z.pos p <= (m0 + 1) * 2 ^ (d - 53)) as Hfl.
  { pose proof (Z.div_mod (Z.pos p) (2 ^ (d - 53)) ltac:(lia)) as Hdm.
    pose proof (Z.mod_pos_bound (Z.pos p) (2 ^ (d - 53)) Hpos) as Hmb.
    fold m0 in Hdm. lia. }
  rewrite Qpower_plus by discriminate.
  rewrite <- (two_pow_Q_inject (d - 53)) by lia.
  rewrite Zle_Qle, inject_Z_mult, inject_Z_plus in Hfl. change (inject_Z 1) with 1%Q in Hfl.
  rewrite Zle_Qle in Hm0. change (inject_Z (2 ^ 52)) with (4503599627370496 # 1)%Q in Hm0.
  pose proof (two_pow_Q_pos ez) as Hz.
  assert (0 < inject_Z (2 ^ (d - 53)))%Q as HposQ
    by (change 0%Q with (inject_Z 0); rewrite <- Zlt_Qlt; exact Hpos).
  set (x := inject_Z m0) in *. set (K := inject_Z (2 ^ (d - 53))) in *.
  set (P := inject_Z (Z.pos p)) in *. set (E2 := (2 ^ ez)%Q) in *.
  apply Qle_trans with (((x + 1) * K) * (E2 * rnd_down))%Q.
  - assert (P * E2 * rnd_down == P * (E2 * rnd_down))%Q as -> by ring.
    apply Qmult_le_compat_r; [exact Hfl|].
    apply Qlt_le_weak, Qmult_lt_0_compat; [exact Hz | reflexivity].
  - assert ((x + 1) * K * (E2 * rnd_down) == ((x + 1) * rnd_down) * (E2 * K))%Q as -> by ring.
    apply Qmult_le_compat_r; [unfold rnd_down; lra|].
    apply Qlt_le_weak, Qmult_lt_0_compat; assumption.
Qed.

Lemma fmul_two_sided (m1 m2 : positive) (e1 e2 : Z) :
  normal53 m1 -> normal53 m2 -> -1000 <= e1 + e2 <= 900 ->
  exists m e,
    fmul (S754_finite false m1 e1) (S754_finite false m2 e2) = S754_finite false m e
    /\ (F2Q m1 e1 * F2Q m2 e2 * rnd_down <= F2Q m e
        <= F2Q m1 e1 * F2Q m2 e2 * rnd_up)%Q.
Proof.
  intros H1 H2 He. unfold fmul, SFmul. cbn [xorb].
  unfold normal53 in H1, H2.
  assert (2 ^ 104 <= Z.pos (m1 * m2) < 2 ^ 106) as Hp.
  { rewrite Pos2Z.inj_mul. change (2 ^ 104) with (2 ^ 52 * 2 ^ 52).
    change (2 ^ 106) with (2 ^ 53 * 2 ^ 53). nia. }
  pose proof (digits2_pos_bounds (m1 * m2)) as Hb.
  set (d := Z.pos (digits2_pos (m1 * m2))) in *.
  assert (105 <= d <= 106) as Hd.
  { split.
    - destruct (Z.le_gt_cases 105 d) as [|Hgt]; [done|].
      assert (2 ^ d <= 2 ^ 104) by (apply Z.pow_le_mono_r; lia). lia.
    - destruct (Z.le_gt_cases d 106) as [|Hgt]; [done|].
      assert (2 ^ 106 <= 2 ^ (d - 1)) by (apply Z.pow_le_mono_r; lia). lia. }
  destruct (binary_round_aux_two_sided false (m1 * m2) (e1 + e2) loc_Exact)
    as (m & e & E & _ & _ & Hlo & Hup); [fold d; lia | fold d; lia |].
  exists m, e. split; [exact E|].
  assert (inject_Z (Z.pos (m1 * m2)) * 2 ^ (e1 + e2) == F2Q m1 e1 * F2Q m2 e2)%Q as Hv.
  { unfold F2Q. rewrite Pos2Z.inj_mul, inject_Z_mult, Qpower_plus by discriminate. ring. }
  rewrite Hv in Hlo, Hup. split; assumption.
Qed.

Lemma int_truediv_two_sided (a b : Z) :
  0 < a < 2 ^ 53 -> 0 < b < 2 ^ 53 ->
  exists m e,
    int_truediv a b = Ok (S754_finite false m e)
    /\ normal53 m /\ -105 <= e <= 1
    /\ (inject_Z a / inject_Z b * (rnd_down / rnd_up) <= F2Q m e
        <= inject_Z a / inject_Z b * rnd_up)%Q.
Proof.
  intros Ha Hb.
  destruct (int_truediv_bounds a b Ha Hb) as (m & e & E & Hm & He & Hup).
  exists m, e. split; [exact E|]. split; [exact Hm|]. split; [exact He|].
  split; [|exact Hup].
  destruct a as [|pa|pa]; [lia| |lia]. destruct b as [|pb|pb]; [lia| |lia].
  pose proof (digits2_pos_bounds pa) as Ba. pose proof (digits2_pos_bounds pb) as Bb.
  pose proof (digits_le_53 pa ltac:(lia)) as Da. pose proof (digits_le_53 pb ltac:(lia)) as Db.
  set (da := Z.pos (digits2_pos pa)) in *. set (db := Z.pos (digits2_pos pb)) in *.
  set (s := 53 + db - da).
  assert (0 < s) as Hs by (unfold s; lia).
  assert (SFdiv_core_binary prec emax (Z.pos pa) 0 (Z.pos pb) 0
          = (Z.pos pa * 2 ^ s / Z.pos pb, - s,
             new_location (Z.pos pb) ((Z.pos pa * 2 ^ s) mod Z.pos pb))) as Ecore.
  { unfold SFdiv_core_binary. cbn [Zdigits2]. fold da db.
    replace (da + 0 - (db + 0)) with (da - db) by lia. rewrite fexp_normal by lia.
    replace (Z.min (da - db - 53) (0 - 0)) with (- s) by (unfold s; lia).
    replace (0 - 0 - - s) with s by lia.
    destruct s as [|ps|ps] eqn:Es; [lia| |lia].
    rewrite Z.shiftl_mul_pow2 by lia. unfold Z.div, Z.modulo.
    destruct (Z.div_eucl (Z.pos pa * 2 ^ Z.pos ps) (Z.pos pb)); reflexivity. }
  set (q := Z.pos pa * 2 ^ s / Z.pos pb) in *.
  assert (0 < 2 ^ s) as Hps by (apply Z.pow_pos_nonneg; lia).
  assert (Z.pos pa * 2 ^ s <= (q + 1) * Z.pos pb) as Hqm.
  { pose proof (Z.div_mod (Z.pos pa * 2 ^ s) (Z.pos pb) ltac:(lia)) as Hdm.
    pose proof (Z.mod_pos_bound (Z.pos pa * 2 ^ s) (Z.pos pb) ltac:(lia)) as Hmb.
    fold q in Hdm. lia. }
  assert (2 ^ (da - 1) * 2 ^ s = 2 ^ 52 * 2 ^ db) as Hlo
    by (rewrite <- !Z.pow_add_r by lia; f_equal; unfold s; lia).
  assert (2 ^ da * 2 ^ s = 2 ^ 54 * 2 ^ (db - 1)) as Hhi
    by (rewrite <- !Z.pow_add_r by lia; f_equal; unfold s; lia).
  assert (2 ^ 52 <= q < 2 ^ 54) as Hqr.
  { unfold q. split.
    - apply Z.div_le_lower_bound; [lia|]. nia.
    - apply Z.div_lt_upper_bound; [lia|]. nia. }
  destruct q as [|p|p] eqn:Eq; [lia| |lia].
  pose proof (digits2_pos_bounds p) as Hb'.
  set (d := Z.pos (digits2_pos p)) in *.
  assert (53 <= d <= 54) as Hd.
  { split.
    - destruct (Z.le_gt_cases 53 d) as [|Hgt]; [done|].
      assert (2 ^ d <= 2 ^ 52) by (apply Z.pow_le_mono_r; lia). lia.
    - destruct (Z.le_gt_cases d 54) as [|Hgt]; [done|].
      assert (2 ^ 54 <= 2 ^ (d - 1)) by (apply Z.pow_le_mono_r; lia). lia. }
  destruct (binary_round_aux_two_sided false p (- s)
              (new_location (Z.pos pb) ((Z.pos pa * 2 ^ s) mod Z.pos pb)))
    as (m' & e' & E' & _ & _ & Hlow & _); [fold d; lia | fold d; unfold s; lia |].
  assert (S754_finite false m' e' = S754_finite false m e) as Hsame.
  { unfold int_truediv in E. cbn [Z.eqb raw_int SFdiv xorb] in E.
    rewrite Ecore, E' in E. injection E as <- <-. reflexivity. }
  injection Hsame as -> ->.
  eapply Qle_trans; [|exact Hlow].
  rewrite Zle_Qle, !inject_Z_mult, inject_Z_plus, two_pow_Q_inject in Hqm by lia.
  change (inject_Z 1) with 1%Q in Hqm.
  destruct Hqr as [Hq52 _]. rewrite Zle_Qle in Hq52.
  change (inject_Z (2 ^ 52)) with (4503599627370496 # 1)%Q in Hq52.
  assert (0 < inject_Z (Z.pos pb))%Q as Hpb
    by (change 0%Q with (inject_Z 0); rewrite <- Zlt_Qlt; lia).
  pose proof (two_pow_Q_pos s) as HpsQ. rewrite Qpower_opp.
  set (A := inject_Z (Z.pos pa)) in *. set (B := inject_Z (Z.pos pb)) in *.
  set (X := inject_Z (Z.pos p)) in *. set (S := (2 ^ s)%Q) in *.
  assert (A / B <= X * rnd_up * / S)%Q as Hquot.
  { apply Qle_trans with ((X + 1) * / S)%Q.
    - apply Qle_shift_div_r; [exact Hpb|].
      assert ((X + 1) * / S * B == ((X + 1) * B) * / S)%Q as -> by ring.
      apply Qle_shift_div_l; [exact HpsQ | exact Hqm].
    - apply Qmult_le_compat_r; [unfold rnd_up; lra|].
      apply Qlt_le_weak, Qinv_lt_0_compat, HpsQ. }
  assert (0 < / S)%Q as HinvS by (apply Qinv_lt_0_compat, HpsQ).
  assert (A / B * (rnd_down / rnd_up) == (A / B) * / rnd_up * rnd_down)%Q as ->
    by (unfold rnd_up, rnd_down; field; lra).
  apply Qmult_le_compat_r; [|unfold rnd_down; lra].
  apply Qle_trans with (X * rnd_up * / S * / rnd_up)%Q.
  - apply Qmult_le_compat_r; [exact Hquot|].
    apply Qlt_le_weak, Qinv_lt_0_compat. reflexivity.
  - apply Qle_lteq. right. unfold rnd_up. field. lra.
Qed.

Lemma ceil_finite_gt (m : positive) (e k : Z) :
  (inject_Z k < F2Q m e)%Q -> k < ceil_finite false m e.
Proof.
  unfold F2Q, ceil_finite. intros H. destruct (Z.leb_spec 0 e) as [He | He].
  - rewrite <- two_pow_Q_inject, <- inject_Z_mult, <- Zlt_Qlt in H by done. exact H.
  - assert (0 < 2 ^ (- e)) as Hp by (apply Z.pow_pos_nonneg; lia).
    assert (k * 2 ^ (- e) < Z.pos m) as Hm.
    { rewrite Zlt_Qlt, inject_Z_mult, two_pow_Q_inject by lia.
      rewrite Qpower_opp. apply Qlt_shift_div_r; [apply two_pow_Q_pos | exact H]. }
    assert (- Z.pos m / 2 ^ (- e) < - k); [|lia].
    apply Z.div_lt_upper_bound; [done|]. lia.
Qed.

End RoundingBounds.

(** ** The scaled side against the exact quotient *)

Section ScaledSide.

Lemma exact_ceil_div_spec (a b : Z) :
  0 < b -> (exact_ceil_div a b - 1) * b < a <= exact_ceil_div a b * b.
Proof.
  intros Hb. unfold exact_ceil_div.
  pose proof (Z.div_mod (- a) b ltac:(lia)) as Hdm.
  pose proof (Z.mod_pos_bound (- a) b Hb) as Hmb. nia.
Qed.

(** [math.ceil(side * (target / longer))] is within one of the ceiling of
    the exact quotient [side * target / longer]. *)
Lemma scaled_side_near_exact (side target longer : Z) :
  0 < side <= longer -> longer < 2 ^ 31 -> 0 < target < 2 ^ 31 ->
  exists s,
    scaled_side side target longer = Ok s
    /\ exact_ceil_div (side * target) longer - 1 <= s
       <= exact_ceil_div (side * target) longer + 1.
Proof.
  intros Ha Hb Ht.
  destruct (float_of_int_normal side) as (ma & da & Ea & Hda & _ & Hva & Hma); [lia|].
  destruct (int_truediv_two_sided target longer) as (ms & es & Es & Hms & Hes & Hslo & Hsup);
    [lia|lia|].
  unfold scaled_side. rewrite Es. cbn [mbind res_bind]. unfold int_mul_float. rewrite Ea.
  destruct (fmul_two_sided ma ms (da - 53) es) as (mr & er & Er & Hrlo & Hrup);
    [done | done | lia |].
  rewrite Er. unfold math_ceil. eexists; split; [reflexivity|].
  rewrite (F2Q_float_of_int side) in Hrlo, Hrup by done.
  pose proof (exact_ceil_div_spec (side * target) longer ltac:(lia)) as [HClo HCup].
  set (C := exact_ceil_div (side * target) longer) in *.
  assert (0 < inject_Z side)%Q as HA
    by (change 0%Q with (inject_Z 0); rewrite <- Zlt_Qlt; lia).
  assert (0 < inject_Z longer)%Q as HB
    by (change 0%Q with (inject_Z 0); rewrite <- Zlt_Qlt; lia).
  assert (0 < inject_Z target <= 2147483648)%Q as [HT HT2].
  { split; [change 0%Q with (inject_Z 0); rewrite <- Zlt_Qlt; lia|].
    change 2147483648%Q with (inject_Z (2 ^ 31)). rewrite <- Zle_Qle. lia. }
  assert (inject_Z side <= inject_Z longer)%Q as HAB by (rewrite <- Zle_Qle; lia).
  replace (C - 1) with (C + -1) in HClo by lia.
  rewrite Zlt_Qlt, inject_Z_mult, inject_Z_mult, inject_Z_plus in HClo.
  rewrite Zle_Qle, !inject_Z_mult in HCup.
  change (inject_Z (-1)) with (- (1))%Q in HClo. fold (Qminus (inject_Z C) 1) in HClo.
  set (A := inject_Z side) in *. set (B := inject_Z longer) in *.
  set (T := inject_Z target) in *. set (S := F2Q ms es) in *.
  set (x := (A * T / B)%Q).
  assert (inject_Z C - 1 < x)%Q as Hx1 by (apply Qlt_shift_div_l; assumption).
  assert (x <= inject_Z C)%Q as Hx2 by (apply Qle_shift_div_r; assumption).
  assert (0 < x)%Q as Hx0.
  { apply Qlt_shift_div_l; [exact HB|]. rewrite Qmult_0_l.
    apply Qmult_lt_0_compat; assumption. }
  assert (x <= T)%Q as HxT.
  { apply Qle_shift_div_r; [exact HB|]. rewrite (Qmult_comm T B).
    apply Qmult_le_compat_r; [exact HAB | apply Qlt_le_weak, HT]. }
  assert (F2Q mr er <= x * (rnd_up * rnd_up))%Q as Hup.
  { eapply Qle_trans; [exact Hrup|].
    apply Qle_trans with (A * (T / B * rnd_up) * rnd_up)%Q.
    - apply Qmult_le_compat_r; [|unfold rnd_up; lra].
      apply Qmult_le_l; [exact HA | exact Hsup].
    - apply Qle_lteq. right. unfold x. field. lra. }
  assert (x * (rnd_down / rnd_up * rnd_down) <= F2Q mr er)%Q as Hlo.
  { eapply Qle_trans; [|exact Hrlo].
    apply Qle_trans with (A * (T / B * (rnd_down / rnd_up)) * rnd_down)%Q.
    - apply Qle_lteq. right. unfold x, rnd_up, rnd_down. field. lra.
    - apply Qmult_le_compat_r; [|unfold rnd_down; lra].
      apply Qmult_le_l; [exact HA | exact Hslo]. }
  assert (1 - (1 # 1125899906842624) <= rnd_down / rnd_up * rnd_down)%Q as Hk
    by (vm_compute; discriminate).
  assert (x * (1 - (1 # 1125899906842624)) <= F2Q mr er)%Q as Hlo'.
  { eapply Qle_trans; [|exact Hlo]. apply Qmult_le_l; [exact Hx0 | exact Hk]. }
  split.
  - assert (C - 2 < ceil_finite false mr er); [|lia].
    apply ceil_finite_gt. replace (C - 2) with (C + -2) by lia.
    rewrite inject_Z_plus. change (inject_Z (-2)) with (- (2))%Q.
    unfold rnd_up in *. lra.
  - apply ceil_finite_le. rewrite inject_Z_plus. change (inject_Z 1) with 1%Q.
    unfold rnd_up in *. lra.
Qed.

(** When the scaled side is strictly the shorter one, the two roundings
    cannot push it past [target]. *)
Lemma scaled_side_shorter_le_target (side target longer : Z) :
  0 < side < longer -> longer < 2 ^ 31 -> 0 < target < 2 ^ 31 ->
  exists s, scaled_side side target longer = Ok s /\ 1 <= s <= target.
Proof.
  intros Ha Hb Ht.
  destruct (float_of_int_normal side) as (ma & da & Ea & Hda & _ & Hva & Hma); [lia|].
  destruct (int_truediv_bounds target longer) as (ms & es & Es & Hms & Hes & Hs); [lia|lia|].
  unfold scaled_side. rewrite Es. cbn [mbind res_bind]. unfold int_mul_float. rewrite Ea.
  destruct (fmul_normal ma ms (da - 53) es) as (mr & er & Er & Hmr & Her & Hr);
    [done | done | lia |].
  rewrite Er. unfold math_ceil. eexists; split; [reflexivity|].
  split; [apply ceil_finite_pos|]. apply ceil_finite_le.
  rewrite (F2Q_float_of_int side) in Hr by done.
  assert (0 < inject_Z side)%Q as HA
    by (change 0%Q with (inject_Z 0); rewrite <- Zlt_Qlt; lia).
  assert (inject_Z side <= inject_Z longer - 1)%Q as HAB.
  { change 1%Q with (inject_Z 1). unfold Qminus. rewrite <- inject_Z_opp, <- inject_Z_plus.
    rewrite <- Zle_Qle. lia. }
  assert (inject_Z longer <= 2147483648)%Q as HB2.
  { change 2147483648%Q with (inject_Z (2 ^ 31)). rewrite <- Zle_Qle. lia. }
  assert (0 < inject_Z target)%Q as HT
    by (change 0%Q with (inject_Z 0); rewrite <- Zlt_Qlt; lia).
  set (A := inject_Z side) in *. set (B := inject_Z longer) in *.
  set (T := inject_Z target) in *. set (S := F2Q ms es) in *.
  eapply Qle_trans; [exact Hr|].
  apply Qle_trans with (A * (T / B * rnd_up) * rnd_up)%Q.
  { apply Qmult_le_compat_r; [|unfold rnd_up; lra].
    apply Qmult_le_l; [exact HA | exact Hs]. }
  assert (A * (T / B * rnd_up) * rnd_up == (A / B) * (T * rnd_up * rnd_up))%Q as ->
    by (field; lra).
  apply Qle_trans with ((2147483647 # 2147483648) * (T * rnd_up * rnd_up))%Q.
  { apply Qmult_le_compat_r; [|unfold rnd_up; nra].
    apply Qle_shift_div_r; lra. }
  unfold rnd_up. lra.
Qed.

End ScaledSide.

(** ** Further properties of [keep_aspect_ratio_resizer] *)

Section ResizerSizes.

Context {cv : Cv2}.


(** The aspect ratio is kept to within one pixel.  The side of the resized
    image that the branch sets (the height of an image taller than wide, the
    width otherwise) is [target_size], and the other side differs from the
    ceiling of the exact quotient [shorter * target_size / longer] by at most
    one.  For an image that is not square the other side is at most
    [target_size], so the longer side of the resized image is exactly
    [target_size]; for a square image it is [target_size] or
    [target_size + 1]. *)
Theorem resizer_keeps_aspect_ratio (image : loc) (target_size : Z) (w : world)
    (a : ndarray) :
  heap w !! image = Some a ->
  int_sized (rows a) -> int_sized (cols a) -> int_sized target_size ->
  exists r o resized_image dims w',
    keep_aspect_ratio_resizer image target_size w = (Ok (o, dims), w')
    /\ heap w' !! r = Some resized_image
    /\ head (drop (length (trace w)) (trace w'))
       = Some (Resize image (cols resized_image, rows resized_image) r)
    /\ (if cols a <? rows a
        then rows resized_image = target_size
             /\ Z.abs (cols resized_image
                       - exact_ceil_div (cols a * target_size) (rows a)) <= 1
        else cols resized_image = target_size
             /\ Z.abs (rows resized_image
                       - exact_ceil_div (rows a * target_size) (cols a)) <= 1)
    /\ (rows a <> cols a ->
        Z.max (rows resized_image) (cols resized_image) = target_size)
    /\ target_size <= Z.max (rows resized_image) (cols resized_image)
       <= target_size + 1.
Proof.
  intros Himg Hr Hc Ht.
  destruct (resizer_outcome image target_size w a Himg Hr Hc Ht)
    as (s & r & o & ar & th & tw & w' & Hrun & Hbr & Hs & Har & Er & Eo & Hheap & Htr & _).
  unfold int_sized in Hr, Hc, Ht.
  exists r, o, ar, (th, tw), w'.
  split; [exact Hrun|].
  split.
  { rewrite Hheap, lookup_insert_ne by (rewrite Eo; apply fresh_insert_ne).
    apply lookup_insert_eq. }
  split; [rewrite Htr, drop_app_length; reflexivity|].
  destruct (Z.ltb_spec (cols a) (rows a)) as [Htall | Hwide].
  - destruct Hbr as (Es & -> & -> & _).
    destruct (scaled_side_near_exact (cols a) target_size (rows a)) as (s' & Es' & Hnear);
      [lia..|].
    rewrite Es in Es'. injection Es' as <-.
    destruct (scaled_side_shorter_le_target (cols a) target_size (rows a))
      as (s' & Es' & Hle); [lia..|].
    rewrite Es in Es'. injection Es' as <-.
    split; [split; [reflexivity | lia]|]. split; [intros _|]; lia.
  - destruct Hbr as (Es & -> & -> & _).
    destruct (scaled_side_near_exact (rows a) target_size (cols a)) as (s' & Es' & Hnear);
      [lia..|].
    rewrite Es in Es'. injection Es' as <-.
    split; [split; [reflexivity | lia]|]. split; [|lia].
    intros Hne.
    destruct (scaled_side_shorter_le_target (rows a) target_size (cols a))
      as (s' & Es' & Hle); [lia..|].
    rewrite Es in Es'. injection Es' as <-. lia.
Qed.

(** For an image at least as wide as tall (a square one included), the
    returned [target_width] is [target_size] and the returned [target_height]
    is the smallest multiple of 32 that is at least [scaled_height], the
    integer [math.ceil(height * (target_size / width))] evaluates to. *)
Theorem resizer_wide_image_dims (image : loc) (target_size : Z) (w : world)
    (a : ndarray) :
  heap w !! image = Some a ->
  int_sized (rows a) -> int_sized (cols a) -> int_sized target_size ->
  rows a <= cols a ->
  exists scaled_height o target_height w',
    scaled_side (rows a) target_size (cols a) = Ok scaled_height
    /\ keep_aspect_ratio_resizer image target_size w
       = (Ok (o, (target_height, target_size)), w')
    /\ smallest_multiple_of_32_ge scaled_height target_height.
Proof.
  intros Himg Hr Hc Ht Hwide.
  destruct (resizer_outcome image target_size w a Himg Hr Hc Ht)
    as (s & r & o & ar & th & tw & w' & Hrun & Hbr & _).
  destruct (Z.ltb_spec (cols a) (rows a)) as [|_]; [lia|].
  destruct Hbr as (Es & _ & _ & -> & ->).
  exists s, o, (round_up_32 s), w'.
  split; [exact Es|]. split; [exact Hrun|]. apply round_up_32_smallest.
Qed.

(** The padding is less than one 32-pixel block: [cv2.copyMakeBorder] gets
    zero for the side that was set to [target_size] and an amount in 0..31
    for the other, and neither returned size exceeds [target_size + 32]. *)
Theorem resizer_padding_below_32 (image : loc) (target_size : Z) (w : world)
    (a : ndarray) :
  heap w !! image = Some a ->
  int_sized (rows a) -> int_sized (cols a) -> int_sized target_size ->
  exists r o bottom right target_height target_width w',
    keep_aspect_ratio_resizer image target_size w
    = (Ok (o, (target_height, target_width)), w')
    /\ last (trace w') = Some (CopyMakeBorder r 0 bottom 0 right o)
    /\ (if cols a <? rows a
        then bottom = 0 /\ 0 <= right < 32
        else right = 0 /\ 0 <= bottom < 32)
    /\ 32 <= Z.max target_height target_width
    /\ target_height <= target_size + 32 /\ target_width <= target_size + 32.
Proof.
  intros Himg Hr Hc Ht.
  destruct (resizer_outcome image target_size w a Himg Hr Hc Ht)
    as (s & r & o & ar & th & tw & w' & Hrun & Hbr & Hs & Har & Er & Eo & Hheap & Htr & _).
  unfold int_sized in Ht.
  assert (s <= round_up_32 s < s + 32 /\ 32 <= round_up_32 s) as (Hpad & H32).
  { unfold round_up_32.
    pose proof (Z.div_mod (s + 31) 32 ltac:(lia)) as Hdm.
    pose proof (Z.mod_pos_bound (s + 31) 32 ltac:(lia)) as Hmb.
    assert (1 <= (s + 31) / 32) by (apply Z.div_le_lower_bound; lia). lia. }
  exists r, o, (th - rows ar), (tw - cols ar), th, tw, w'.
  split; [exact Hrun|].
  split.
  { rewrite Htr.
    change [Resize image (cols ar, rows ar) r;
            CopyMakeBorder r 0 (th - rows ar) 0 (tw - cols ar) o]
      with ([Resize image (cols ar, rows ar) r]
            ++ [CopyMakeBorder r 0 (th - rows ar) 0 (tw - cols ar) o]).
    rewrite app_assoc. apply last_snoc. }
  destruct (cols a <? rows a); destruct Hbr as (_ & -> & -> & -> & ->);
    repeat split; lia.
Qed.

End ResizerSizes.

(** ** Inputs the resizer rejects *)

Section ResizerErrors.

Context {cv : Cv2}.

Lemma bind_raises {A B : Type} (m : M A) (f : A -> M B) (w w' : world) (e : exn) :
  m w = (Raise e, w') -> (m ≫= f) w = (Raise e, w').
Proof. intros H. unfold mbind, M_bind. rewrite H. reflexivity. Qed.

Lemma binary_round_aux_opp (m e : Z) (l : location) :
  binary_round_aux prec emax true m e l = SFopp (binary_round_aux prec emax false m e l).
Proof.
  unfold binary_round_aux.
  destruct (shr_fexp prec emax m e l) as [mrs' e'].
  destruct (shr_fexp prec emax _ e' loc_Exact) as [mrs'' e''].
  destruct (shr_m mrs''); [reflexivity | | reflexivity].
  destruct (e'' <=? emax - prec); reflexivity.
Qed.

Lemma int_truediv_neg (p : positive) (b : Z) (m : positive) (e : Z) :
  0 < b -> int_truediv (Z.pos p) b = Ok (S754_finite false m e) ->
  int_truediv (Z.neg p) b = Ok (S754_finite true m e).
Proof.
  intros Hb. destruct b as [|pb|pb]; [lia| |lia].
  unfold int_truediv. cbn [Z.eqb raw_int SFdiv xorb].
  destruct (SFdiv_core_binary prec emax (Z.pos p) 0 (Z.pos pb) 0) as [[mz ez] lz].
  rewrite binary_round_aux_opp.
  destruct (binary_round_aux prec emax false mz ez lz) as [s|s| |s m' e']; cbn [SFopp];
    intros H; try discriminate.
  injection H as -> -> ->. reflexivity.
Qed.

Lemma fmul_neg (m1 m2 : positive) (e1 e2 : Z) :
  fmul (S754_finite false m1 e1) (S754_finite true m2 e2)
  = SFopp (fmul (S754_finite false m1 e1) (S754_finite false m2 e2)).
Proof. unfold fmul, SFmul. cbn [xorb]. apply binary_round_aux_opp. Qed.

(** [math.ceil(side * (target / longer))] is defined for a target that is
    zero or negative, and for a side that is zero. *)
Lemma scaled_side_defined (side target longer : Z) :
  0 <= side < 2 ^ 31 -> 0 < longer < 2 ^ 31 -> - 2 ^ 31 < target < 2 ^ 31 ->
  exists s, scaled_side side target longer = Ok s /\ (side = 0 -> s = 0).
Proof.
  intros Hside Hlonger Htarget.
  assert (exists scale, int_truediv target longer = Ok scale
                        /\ (scale = S754_zero false
                            \/ exists sg m e, scale = S754_finite sg m e
                                              /\ normal53 m /\ -105 <= e <= 1))
    as (scale & Escale & Hscale).
  { destruct target as [|p|p].
    - exists (S754_zero false). split; [|left; reflexivity].
      destruct longer as [|pl|pl]; [lia| |lia]. reflexivity.
    - destruct (int_truediv_bounds (Z.pos p) longer) as (m & e & E & Hm & He & _); [lia..|].
      exists (S754_finite false m e). split; [exact E|]. right. eauto 10.
    - destruct (int_truediv_bounds (Z.pos p) longer) as (m & e & E & Hm & He & _); [lia..|].
      exists (S754_finite true m e). split; [apply int_truediv_neg; [lia | exact E]|].
      right. eauto 10. }
  unfold scaled_side. rewrite Escale. cbn [mbind res_bind]. unfold int_mul_float.
  destruct (Z.eq_dec side 0) as [-> | Hne].
  - change (float_of_int 0) with (S754_zero false).
    destruct Hscale as [-> | (sg & m & e & -> & _)].
    + exists 0. split; [reflexivity | auto].
    + exists 0. split; [destruct sg; reflexivity | auto].
  - destruct (float_of_int_normal side) as (ma & da & Ea & Hda & _ & _ & Hma); [lia|].
    rewrite Ea.
    destruct Hscale as [-> | (sg & m & e & -> & Hm & He)].
    + exists 0. split; [reflexivity | lia].
    + destruct (fmul_normal ma m (da - 53) e) as (mr & er & Er & _); [done | done | lia |].
      destruct sg.
      * rewrite fmul_neg, Er. eexists. split; [reflexivity | lia].
      * rewrite Er. eexists. split; [reflexivity | lia].
Qed.

(** When the size handed to [cv2.resize] is not positive in both
    components, or the image is empty, the call raises and the state is
    the one before the call. *)
Lemma resizer_raises_at_resize (image : loc) (target_size : Z) (w : world) (a : ndarray)
    (s : Z) :
  heap w !! image = Some a ->
  (if cols a <? rows a
   then scaled_side (cols a) target_size (rows a) = Ok s
   else scaled_side (rows a) target_size (cols a) = Ok s) ->
  ~ (0 < rows a /\ 0 < cols a /\ 0 < target_size /\ 0 < s) ->
  keep_aspect_ratio_resizer image target_size w = (Raise cv2_error, w).
Proof.
  intros Himg Hs Hbad. unfold keep_aspect_ratio_resizer.
  erewrite bind_run by (apply read_run; exact Himg). cbv zeta.
  apply bind_raises.
  destruct (cols a <? rows a).
  - destruct (scaled_side_steps _ _ _ _ Hs) as (scale & x & E1 & E2 & E3).
    erewrite bind_run by (apply lift_run; exact E1).
    erewrite bind_run by (apply lift_run; exact E2).
    erewrite bind_run by (apply lift_run; exact E3).
    apply bind_raises. unfold cv2_resize.
    erewrite bind_run by (apply read_run; exact Himg). cbn [fst snd].
    assert (((0 <? rows a) && (0 <? cols a) && (0 <? s) && (0 <? target_size)) = false) as ->.
    { apply not_true_is_false. rewrite !andb_true_iff, !Z.ltb_lt. lia. }
    reflexivity.
  - destruct (scaled_side_steps _ _ _ _ Hs) as (scale & x & E1 & E2 & E3).
    erewrite bind_run by (apply lift_run; exact E1).
    erewrite bind_run by (apply lift_run; exact E2).
    erewrite bind_run by (apply lift_run; exact E3).
    apply bind_raises. unfold cv2_resize.
    erewrite bind_run by (apply read_run; exact Himg). cbn [fst snd].
    assert (((0 <? rows a) && (0 <? cols a) && (0 <? target_size) && (0 <? s)) = false) as ->.
    { apply not_true_is_false. rewrite !andb_true_iff, !Z.ltb_lt. lia. }
    reflexivity.
Qed.

(** An image with no rows and no columns makes [target_size / width] divide
    by zero: the call raises [ZeroDivisionError] before any OpenCV call,
    whatever [target_size] is. *)
Theorem resizer_empty_image_divides_by_zero (image : loc) (target_size : Z) (w : world)
    (a : ndarray) :
  heap w !! image = Some a -> rows a = 0 -> cols a = 0 ->
  keep_aspect_ratio_resizer image target_size w = (Raise ZeroDivisionError, w).
Proof.
  intros Himg Hr Hc. unfold keep_aspect_ratio_resizer.
  erewrite bind_run by (apply read_run; exact Himg). cbv zeta.
  apply bind_raises. rewrite Hr, Hc. change (0 <? 0) with false. cbv iota.
  apply bind_raises. reflexivity.
Qed.

(** An image with exactly one side of length zero gets a scaled side of
    zero, which [cv2.resize] rejects: the call raises [cv2.error], nothing
    is allocated and the state is unchanged. *)
Theorem resizer_zero_side_rejected (image : loc) (target_size : Z) (w : world)
    (a : ndarray) :
  heap w !! image = Some a ->
  (rows a = 0 /\ int_sized (cols a)) \/ (int_sized (rows a) /\ cols a = 0) ->
  int_sized target_size ->
  keep_aspect_ratio_resizer image target_size w = (Raise cv2_error, w).
Proof.
  intros Himg Hsides Ht. unfold int_sized in *.
  destruct Hsides as [[Hr Hc] | [Hr Hc]].
  - destruct (scaled_side_defined (rows a) target_size (cols a)) as (s & Es & Hs0); [lia..|].
    apply (resizer_raises_at_resize image target_size w a s Himg); [|lia].
    destruct (Z.ltb_spec (cols a) (rows a)) as [|_]; [lia | exact Es].
  - destruct (scaled_side_defined (cols a) target_size (rows a)) as (s & Es & Hs0); [lia..|].
    apply (resizer_raises_at_resize image target_size w a s Himg); [|lia].
    destruct (Z.ltb_spec (cols a) (rows a)) as [_|]; [exact Es | lia].
Qed.

(** A [target_size] that is zero or negative is not checked by the
    function itself: the scale is computed, and [cv2.resize] rejects the
    size: the call raises [cv2.error] and the state is unchanged. *)
Theorem resizer_nonpositive_target_rejected (image : loc) (target_size : Z) (w : world)
    (a : ndarray) :
  heap w !! image = Some a ->
  int_sized (rows a) -> int_sized (cols a) ->
  - 2 ^ 31 < target_size <= 0 ->
  keep_aspect_ratio_resizer image target_size w = (Raise cv2_error, w).
Proof.
  intros Himg Hr Hc Ht. unfold int_sized in *.
  destruct (Z.ltb_spec (cols a) (rows a)) as [Htall | Hwide].
  - destruct (scaled_side_defined (cols a) target_size (rows a)) as (s & Es & _); [lia..|].
    apply (resizer_raises_at_resize image target_size w a s Himg); [|lia].
    destruct (Z.ltb_spec (cols a) (rows a)) as [_|]; [exact Es | lia].
  - destruct (scaled_side_defined (rows a) target_size (cols a)) as (s & Es & _); [lia..|].
    apply (resizer_raises_at_resize image target_size w a s Himg); [|lia].
    destruct (Z.ltb_spec (cols a) (rows a)) as [|_]; [lia | exact Es].
Qed.

End ResizerErrors.

(** ** An image that already fits *)

Section FittingImage.

Context {cv : Cv2}.

Lemma iter_pos_as_iter {A : Type} (f : A -> A) (n : positive) (x : A) :
  SpecFloat.iter_pos f n x = Pos.iter f x n.
Proof.
  revert x. induction n as [n IH | n IH |]; intros x; cbn [SpecFloat.iter_pos Pos.iter].
  - rewrite !IH, !Pos.iter_swap. reflexivity.
  - rewrite !IH. reflexivity.
  - reflexivity.
Qed.

Lemma iter_shr_1_exact (k m : positive) :
  Pos.iter shr_1 {| shr_m := Z.pos (m * 2 ^ k); shr_r := false; shr_s := false |} k
  = {| shr_m := Z.pos m; shr_r := false; shr_s := false |}.
Proof.
  revert m. induction k as [|k IH] using Pos.peano_ind; intros m.
  - rewrite Pos.pow_1_r, Pos.mul_comm. reflexivity.
  - rewrite Pos.iter_succ, <- Pos.iter_swap.
    assert ((m * 2 ^ Pos.succ k)%positive = ((m * 2 ^ k)~0)%positive) as ->.
    { rewrite Pos.pow_succ_r, Pos.mul_assoc, (Pos.mul_comm m 2), <- Pos.mul_assoc.
      reflexivity. }
    cbn [shr_1 orb]. apply IH.
Qed.

Lemma binary_round_aux_exact_shift (sx : bool) (m k : positive) (ez : Z) :
  normal53 m -> -1074 <= ez -> ez + Z.pos k <= 971 ->
  binary_round_aux prec emax sx (Z.pos (m * 2 ^ k)) ez loc_Exact
  = S754_finite sx m (ez + Z.pos k).
Proof.
  intros Hm Hlo Hhi.
  assert (Z.pos (digits2_pos m) = 53) as Hd by (apply digits2_pos_unique; exact Hm).
  assert (Z.pos (digits2_pos (m * 2 ^ k)) = 53 + Z.pos k) as Hdk.
  { apply digits2_pos_unique. unfold normal53 in Hm.
    rewrite Pos2Z.inj_mul, Pos2Z.inj_pow.
    assert (0 < 2 ^ Z.pos k) by (apply Z.pow_pos_nonneg; lia).
    replace (53 + Z.pos k - 1) with (52 + Z.pos k) by lia.
    rewrite !Z.pow_add_r by lia. change (Z.pos 2) with 2. nia. }
  assert (shr_fexp prec emax (Z.pos (m * 2 ^ k)) ez loc_Exact
          = ({| shr_m := Z.pos m; shr_r := false; shr_s := false |}, ez + Z.pos k)) as E1.
  { unfold shr_fexp. cbn [Zdigits2]. rewrite Hdk, fexp_normal by lia.
    replace (53 + Z.pos k + ez - 53 - ez) with (Z.pos k) by lia.
    cbn [shr shr_record_of_loc]. rewrite iter_pos_as_iter, iter_shr_1_exact. reflexivity. }
  assert (shr_fexp prec emax (Z.pos m) (ez + Z.pos k) loc_Exact
          = ({| shr_m := Z.pos m; shr_r := false; shr_s := false |}, ez + Z.pos k)) as E2.
  { unfold shr_fexp. cbn [Zdigits2]. rewrite Hd, fexp_normal by lia.
    replace (53 + (ez + Z.pos k) - 53 - (ez + Z.pos k)) with 0 by lia. reflexivity. }
  unfold binary_round_aux. rewrite E1.
  cbn [shr_m loc_of_shr_record round_nearest_even]. rewrite E2. cbn [shr_m].
  assert ((ez + Z.pos k <=? emax - prec) = true) as ->
    by (apply Z.leb_le; unfold emax, prec; lia).
  reflexivity.
Qed.

(** [n / n] is exactly [1.0]. *)
Lemma int_truediv_self (n : Z) :
  0 < n < 2 ^ 53 -> int_truediv n n = Ok (S754_finite false (2 ^ 52) (-52)).
Proof.
  intros [Hn0 Hn]. destruct n as [|p|p]; [lia| |lia].
  pose proof (digits_le_53 p Hn) as Dp.
  unfold int_truediv. cbn [Z.eqb raw_int SFdiv xorb].
  assert (SFdiv_core_binary prec emax (Z.pos p) 0 (Z.pos p) 0
          = (Z.pos (2 ^ 52)~0, -53, loc_Exact)) as ->.
  { unfold SFdiv_core_binary. cbn [Zdigits2].
    set (d := Z.pos (digits2_pos p)) in *.
    replace (d + 0 - (d + 0)) with 0 by lia.
    rewrite fexp_normal by lia.
    replace (Z.min (0 - 53) (0 - 0)) with (-53) by lia.
    replace (0 - 0 - -53) with 53 by lia.
    rewrite Z.shiftl_mul_pow2 by lia.
    destruct (Z.div_eucl (Z.pos p * 2 ^ 53) (Z.pos p)) as [q r] eqn:Ediv.
    assert (q = Z.pos p * 2 ^ 53 / Z.pos p) as Hq
      by (unfold Z.div; rewrite Ediv; reflexivity).
    assert (r = (Z.pos p * 2 ^ 53) mod Z.pos p) as Hr
      by (unfold Z.modulo; rewrite Ediv; reflexivity).
    rewrite (Z.mul_comm (Z.pos p)), Z.div_mul in Hq by lia.
    rewrite (Z.mul_comm (Z.pos p)), Z.mod_mul in Hr by lia.
    subst q r. unfold new_location, new_location_even, new_location_odd.
    destruct (Z.even (Z.pos p)); reflexivity. }
  rewrite binary_round_aux_exact1 by (unfold normal53; lia).
  reflexivity.
Qed.

(** Multiplying by [1.0] changes nothing. *)
Lemma fmul_one (m : positive) (e : Z) :
  normal53 m -> -1000 <= e <= 900 ->
  fmul (S754_finite false m e) (S754_finite false (2 ^ 52) (-52)) = S754_finite false m e.
Proof.
  intros Hm He. unfold fmul, SFmul. cbn [xorb].
  rewrite binary_round_aux_exact_shift by (done || lia).
  f_equal. lia.
Qed.

(** A C int survives the trip through [float] and [math.ceil]. *)
Lemma math_ceil_float_of_int (n : Z) (m : positive) (d : Z) :
  1 <= d <= 53 -> Z.pos m = n * 2 ^ (53 - d) ->
  math_ceil (S754_finite false m (d - 53)) = Ok n.
Proof.
  intros Hd Hv. unfold math_ceil, ceil_finite. f_equal.
  assert (0 < 2 ^ (53 - d)) as Hp by (apply Z.pow_pos_nonneg; lia).
  destruct (Z.leb_spec 0 (d - 53)) as [Hge | Hlt].
  - assert (d = 53) as -> by lia.
    change (53 - 53) with 0 in *. rewrite Z.pow_0_r in *. lia.
  - rewrite Hv. replace (- (d - 53)) with (53 - d) by lia.
    rewrite <- Z.mul_opp_l, Z.div_mul by lia. lia.
Qed.

(** With the longer side equal to the target the scale is [1.0] and the
    scaled side is the side itself. *)
Lemma scaled_side_unit_scale (side target : Z) :
  0 < side < 2 ^ 53 -> 0 < target < 2 ^ 53 ->
  scaled_side side target target = Ok side.
Proof.
  intros Hside Htarget.
  destruct (float_of_int_normal side Hside) as (m & d & E & Hd & _ & Hv & Hm).
  unfold scaled_side. rewrite int_truediv_self by exact Htarget. cbn [mbind res_bind].
  unfold int_mul_float. rewrite E. cbn [mbind res_bind].
  rewrite fmul_one by (done || lia). apply math_ceil_float_of_int; assumption.
Qed.

(** When the longer side of the image already equals [target_size], the
    resize step asks for the image's own size, and the result is the input
    shape with its shorter side rounded up to a multiple of 32. *)
Theorem resizer_keeps_fitting_size (image : loc) (target_size : Z) (w : world)
    (a : ndarray) :
  heap w !! image = Some a ->
  int_sized (rows a) -> int_sized (cols a) ->
  Z.max (rows a) (cols a) = target_size ->
  exists r o w',
    keep_aspect_ratio_resizer image target_size w
    = (Ok (o, if cols a <? rows a
              then (rows a, round_up_32 (cols a))
              else (round_up_32 (rows a), cols a)), w')
    /\ head (drop (length (trace w)) (trace w')) = Some (Resize image (cols a, rows a) r).
Proof.
  intros Himg Hr Hc Hmax.
  assert (int_sized target_size) as Ht by (unfold int_sized in *; lia).
  destruct (resizer_outcome image target_size w a Himg Hr Hc Ht)
    as (s & r & o & ar & th & tw & w' & Hrun & Hbr & Hs & Har & Er & Eo & Hheap & Htr & _).
  unfold int_sized in Hr, Hc, Ht.
  exists r, o, w'.
  destruct (Z.ltb_spec (cols a) (rows a)) as [Htall | Hwide].
  - assert (rows a = target_size) as Hfit by lia.
    destruct Hbr as (Es & Hrows & Hcols & -> & ->).
    rewrite <- Hfit, scaled_side_unit_scale in Es by lia. injection Es as <-.
    split; [rewrite Hfit; exact Hrun|].
    rewrite Htr, drop_app_length, Hrows, Hcols, Hfit. reflexivity.
  - assert (cols a = target_size) as Hfit by lia.
    destruct Hbr as (Es & Hrows & Hcols & -> & ->).
    rewrite <- Hfit, scaled_side_unit_scale in Es by lia. injection Es as <-.
    split; [rewrite Hfit; exact Hrun|].
    rewrite Htr, drop_app_length, Hrows, Hcols, Hfit. reflexivity.
Qed.

End FittingImage.

(** ** Further properties of [visualize] *)

Section VisualizeMore.

Context {cv : Cv2}.

Lemma py_index_raises {A : Type} (l : list A) (i : Z) :
  0 <= i -> l !! Z.to_nat i = None -> py_index l i = Raise IndexError.
Proof.
  intros Hi Hx. unfold py_index.
  pose proof (lookup_ge_None_1 _ _ Hx) as Hge.
  destruct (Z.ltb_spec i 0) as [|_]; [lia|].
  assert (((0 <=? i) && (i <? Z.of_nat (length l))) = false) as ->
    by (apply not_true_is_false; rewrite andb_true_iff, Z.leb_le, Z.ltb_lt; lia).
  reflexivity.
Qed.

Lemma draw_edge_cases (image : loc) (keypoints : list KeyPoint.t) (thr : spec_float)
    (entry : (Z * Z) * color) (w : world) :
  0 <= fst (fst entry) -> 0 <= snd (fst entry) -> bound image w ->
  if edge_indexable keypoints thr entry
  then draw_edge image keypoints thr entry w
       = (Ok tt, after_calls (table_calls image thr keypoints [entry]) w)
  else draw_edge image keypoints thr entry w = (Raise IndexError, w).
Proof.
  destruct entry as [[i j] col]. cbn [fst snd]. intros Hi Hj Hw.
  unfold edge_indexable, table_calls. cbn [fst snd flat_map]. rewrite app_nil_r.
  unfold draw_edge. cbn [fst snd].
  destruct (keypoints !! Z.to_nat i) as [k0|] eqn:H0.
  - erewrite bind_run by (apply lift_run, py_index_run; [exact Hi | exact H0]).
    unfold edge_calls.
    destruct (flt thr (KeyPoint.score k0)); cbn [andb].
    + destruct (keypoints !! Z.to_nat j) as [k1|] eqn:H1.
      * erewrite bind_run by (apply lift_run, py_index_run; [exact Hj | exact H1]).
        destruct (flt thr (KeyPoint.score k1)).
        -- apply cv2_line_run, Hw.
        -- rewrite after_calls_nil. reflexivity.
      * apply bind_raises. unfold lift. rewrite py_index_raises by assumption. reflexivity.
    + destruct (keypoints !! Z.to_nat j); rewrite after_calls_nil; reflexivity.
  - apply bind_raises. unfold lift. rewrite py_index_raises by assumption. reflexivity.
Qed.

Lemma table_calls_cons (image : loc) (thr : spec_float) (keypoints : list KeyPoint.t)
    (entry : (Z * Z) * color) (table : list ((Z * Z) * color)) :
  table_calls image thr keypoints (entry :: table)
  = table_calls image thr keypoints [entry] ++ table_calls image thr keypoints table.
Proof. unfold table_calls. cbn [flat_map]. rewrite app_nil_r. reflexivity. Qed.

Lemma draw_edges_cases (image : loc) (keypoints : list KeyPoint.t) (thr : spec_float)
    (table : list ((Z * Z) * color)) (w : world) :
  Forall (fun entry => 0 <= fst (fst entry) /\ 0 <= snd (fst entry)) table ->
  bound image w ->
  if forallb (edge_indexable keypoints thr) table
  then for_each (draw_edge image keypoints thr) table w
       = (Ok tt, after_calls (table_calls image thr keypoints table) w)
  else exists lines,
         for_each (draw_edge image keypoints thr) table w
         = (Raise IndexError, after_calls lines w).
Proof.
  intros Hnn. revert w. induction Hnn as [|entry table [Hi Hj] _ IH]; intros w Hw.
  - cbn [forallb for_each]. unfold table_calls. cbn [flat_map].
    rewrite after_calls_nil. reflexivity.
  - cbn [forallb for_each].
    pose proof (draw_edge_cases image keypoints thr entry w Hi Hj Hw) as Hentry.
    destruct (edge_indexable keypoints thr entry); cbn [andb].
    + erewrite bind_run by exact Hentry.
      specialize (IH _ (after_calls_bound (table_calls image thr keypoints [entry]) w
                          image Hw)).
      destruct (forallb (edge_indexable keypoints thr) table).
      * rewrite IH, (table_calls_cons image thr keypoints entry table), after_calls_app.
        reflexivity.
      * destruct IH as (lines & IH).
        exists (table_calls image thr keypoints [entry] ++ lines).
        rewrite IH, after_calls_app. reflexivity.
    + exists []. rewrite after_calls_nil. apply bind_raises. exact Hentry.
Qed.

Lemma table_nonnegative :
  Forall (fun entry : (Z * Z) * color => 0 <= fst (fst entry) /\ 0 <= snd (fst entry))
    KEYPOINT_EDGE_INDS_TO_COLOR.
Proof.
  eapply Forall_impl; [exact table_in_range|]. intros entry [H0 H1]. lia.
Qed.

Lemma draw_person_cases (image : loc) (col : color) (kthr ithr : spec_float)
    (person : Person.t) (w : world) :
  module_loaded w -> bound image w ->
  if person_drawable kthr ithr person
  then draw_person image col kthr ithr person w
       = (Ok tt, after_calls (visualize_calls image col kthr ithr person) w)
  else exists lines,
         draw_person image col kthr ithr person w
         = (Raise IndexError,
            after_calls (flat_map (landmark_calls image col kthr) (Person.keypoints person)
                         ++ lines) w).
Proof.
  intros Hload Hw. unfold person_drawable, draw_person, visualize_calls.
  destruct (flt (Person.score person) ithr); cbn [orb].
  - rewrite after_calls_nil. reflexivity.
  - erewrite bind_run by (apply draw_landmarks_run, Hw).
    erewrite bind_run by reflexivity. cbn [after_calls edge_colors]. rewrite Hload.
    pose proof (draw_edges_cases image (Person.keypoints person) kthr
                  KEYPOINT_EDGE_INDS_TO_COLOR _ table_nonnegative
                  (after_calls_bound
                     (flat_map (landmark_calls image col kthr) (Person.keypoints person))
                     w image Hw)) as Hedges.
    destruct (forallb _ KEYPOINT_EDGE_INDS_TO_COLOR).
    + unfold person_calls. rewrite after_calls_app. exact Hedges.
    + destruct Hedges as (lines & Hedges). exists lines.
      rewrite after_calls_app. exact Hedges.
Qed.

(** [visualize] returns for every list of persons that are each skipped or
    have a keypoint for every index the edge loop reads: 17 keypoints are
    enough but not required. *)
Theorem visualize_returns_when_indexable (image : loc) (list_persons : list Person.t)
    (keypoint_color : color) (keypoint_threshold instance_threshold : spec_float)
    (w : world) :
  module_loaded w -> bound image w ->
  forallb (person_drawable keypoint_threshold instance_threshold) list_persons = true ->
  visualize image list_persons keypoint_color keypoint_threshold instance_threshold w
  = (Ok image,
     after_calls
       (flat_map (visualize_calls image keypoint_color keypoint_threshold
                    instance_threshold) list_persons) w).
Proof.
  intros Hload Hw Hall. unfold visualize.
  erewrite bind_run; [reflexivity|].
  revert w Hload Hw. induction list_persons as [|p persons IH]; intros w Hload Hw.
  - cbn [for_each flat_map]. rewrite after_calls_nil. reflexivity.
  - cbn [forallb] in Hall. apply andb_true_iff in Hall as [Hp Hrest].
    cbn [for_each flat_map].
    pose proof (draw_person_cases image keypoint_color keypoint_threshold
                  instance_threshold p w Hload Hw) as Hperson.
    rewrite Hp in Hperson. erewrite bind_run by exact Hperson.
    rewrite after_calls_app. apply IH; [exact Hrest | exact Hload |].
    apply after_calls_bound, Hw.
Qed.

(** [visualize] raises [IndexError] at the first person that is not skipped
    and lacks a keypoint the edge loop reads; by then the earlier persons
    and all the landmarks of that person have been drawn on the image, and
    they stay drawn. *)
Theorem visualize_index_error_midway (image : loc) (before after : list Person.t)
    (person : Person.t) (keypoint_color : color)
    (keypoint_threshold instance_threshold : spec_float) (w : world) :
  module_loaded w -> bound image w ->
  forallb (person_drawable keypoint_threshold instance_threshold) before = true ->
  person_drawable keypoint_threshold instance_threshold person = false ->
  exists lines,
    visualize image (before ++ person :: after) keypoint_color keypoint_threshold
      instance_threshold w
    = (Raise IndexError,
       after_calls
         (flat_map (visualize_calls image keypoint_color keypoint_threshold
                      instance_threshold) before
          ++ flat_map (landmark_calls image keypoint_color keypoint_threshold)
               (Person.keypoints person)
          ++ lines) w).
Proof.
  intros Hload Hw Hbefore Hperson. unfold visualize.
  assert (exists lines,
             for_each (draw_person image keypoint_color keypoint_threshold
                         instance_threshold) (before ++ person :: after) w
             = (Raise IndexError,
                after_calls
                  (flat_map (visualize_calls image keypoint_color keypoint_threshold
                               instance_threshold) before
                   ++ flat_map (landmark_calls image keypoint_color keypoint_threshold)
                        (Person.keypoints person)
                   ++ lines) w)) as (lines & Hloop).
  { revert w Hload Hw. induction before as [|p before IH]; intros w Hload Hw.
    - cbn [app for_each flat_map].
      pose proof (draw_person_cases image keypoint_color keypoint_threshold
                    instance_threshold person w Hload Hw) as Hcases.
      rewrite Hperson in Hcases. destruct Hcases as (lines & Hcases).
      exists lines. apply bind_raises. exact Hcases.
    - cbn [forallb] in Hbefore. apply andb_true_iff in Hbefore as [Hp Hrest].
      cbn [app for_each flat_map].
      pose proof (draw_person_cases image keypoint_color keypoint_threshold
                    instance_threshold p w Hload Hw) as Hcases.
      rewrite Hp in Hcases. erewrite bind_run by exact Hcases.
      destruct (IH Hrest
                  (after_calls (visualize_calls image keypoint_color keypoint_threshold
                                  instance_threshold p) w)
                  Hload (after_calls_bound _ w image Hw)) as (lines & IH').
      exists lines. rewrite IH', <- after_calls_app, <- app_assoc. reflexivity. }
  exists lines. apply bind_raises. exact Hloop.
Qed.

(** Persons below the instance threshold can be dropped from the list
    beforehand: the result and the final state are the same. *)
Theorem visualize_ignores_skipped (image : loc) (list_persons : list Person.t)
    (keypoint_color : color) (keypoint_threshold instance_threshold : spec_float)
    (w : world) :
  visualize image list_persons keypoint_color keypoint_threshold instance_threshold w
  = visualize image
      (List.filter (fun person => negb (flt (Person.score person) instance_threshold))
         list_persons)
      keypoint_color keypoint_threshold instance_threshold w.
Proof.
  unfold visualize, mbind, M_bind. f_equal.
  revert w. induction list_persons as [|p persons IH]; intros w; [reflexivity|].
  cbn [List.filter for_each].
  destruct (flt (Person.score p) instance_threshold) eqn:Hp; cbn [negb].
  - erewrite bind_run; [apply IH|]. unfold draw_person. rewrite Hp. reflexivity.
  - cbn [for_each]. unfold mbind, M_bind.
    destruct (draw_person _ _ _ _ p w) as [[[]|e] w1]; [apply IH | reflexivity].
Qed.

Lemma for_each_app {A : Type} (body : A -> M unit) (l1 l2 : list A) (w : world) :
  for_each body (l1 ++ l2) w = (for_each body l1 ≫= fun _ => for_each body l2) w.
Proof.
  revert w. induction l1 as [|x l1 IH]; intros w; [reflexivity|].
  cbn [app for_each]. unfold mbind, M_bind.
  destruct (body x w) as [[[]|e] w1]; [|reflexivity].
  rewrite IH. reflexivity.
Qed.

Lemma bind_cong {A B : Type} (m m' : M A) (f : A -> M B) (w w' : world) :
  m w = m' w' -> (m ≫= f) w = (m' ≫= f) w'.
Proof. intros H. unfold mbind, M_bind. rewrite H. reflexivity. Qed.

(** Drawing a list of persons in two calls, one after the other, is the
    same as drawing the concatenated list in one call; when the first call
    raises, the second is not made. *)
Theorem visualize_app (image : loc) (persons1 persons2 : list Person.t)
    (keypoint_color : color) (keypoint_threshold instance_threshold : spec_float)
    (w : world) :
  visualize image (persons1 ++ persons2) keypoint_color keypoint_threshold
    instance_threshold w
  = (image' ← visualize image persons1 keypoint_color keypoint_threshold
                instance_threshold;
     visualize image' persons2 keypoint_color keypoint_threshold instance_threshold) w.
Proof.
  destruct (for_each (draw_person image keypoint_color keypoint_threshold
                        instance_threshold) persons1 w) as [[[]|e] w1] eqn:E1.
  - assert (visualize image persons1 keypoint_color keypoint_threshold
              instance_threshold w = (Ok image, w1)) as H1
      by (unfold visualize; rewrite (bind_run _ _ _ _ _ E1); reflexivity).
    rewrite (bind_run _ _ _ _ _ H1). unfold visualize.
    apply bind_cong. rewrite for_each_app.
    exact (bind_run _ (fun _ => for_each _ persons2) _ _ _ E1).
  - assert (visualize image persons1 keypoint_color keypoint_threshold
              instance_threshold w = (Raise e, w1)) as H1
      by (unfold visualize; apply bind_raises, E1).
    rewrite (bind_raises _ _ _ _ _ H1). unfold visualize.
    apply bind_raises. rewrite for_each_app. apply bind_raises, E1.
Qed.

#[local] Instance draws_only_on_preorder (image : loc) : PreOrder (draws_only_on image).
Proof.
  split.
  - intros w. split; [auto|]. split; [reflexivity|].
    exists []. split; [rewrite app_nil_r; reflexivity | constructor].
  - intros x y z (Hxy1 & Hxy2 & cs1 & Hxy3 & Hxy4) (Hyz1 & Hyz2 & cs2 & Hyz3 & Hyz4).
    split; [intros l Hl; rewrite Hyz1, Hxy1 by exact Hl; reflexivity|].
    split; [rewrite Hyz2, Hxy2; reflexivity|].
    exists (cs1 ++ cs2). split; [rewrite Hyz3, Hxy3, app_assoc; reflexivity|].
    apply Forall_app; auto.
Qed.

Lemma cv2_circle_draws_only_on (image : loc) (center : point) (radius : Z) (col : color)
    (thickness : Z) :
  respects (draws_only_on image) (cv2_circle image center radius col thickness).
Proof.
  intros w. unfold cv2_circle, read, write, log, mbind, M_bind.
  destruct (heap w !! image) as [a|] eqn:Ha; cbn [snd]; [|reflexivity].
  split; [cbn [heap]; intros l Hl; rewrite lookup_insert_ne by congruence; reflexivity|].
  split; [cbn [heap]; rewrite lookup_insert_eq, Ha; reflexivity|].
  eexists. split; [reflexivity|]. repeat constructor.
Qed.

Lemma cv2_line_draws_only_on (image : loc) (pt1 pt2 : point) (col : color)
    (thickness : Z) :
  respects (draws_only_on image) (cv2_line image pt1 pt2 col thickness).
Proof.
  intros w. unfold cv2_line, read, write, log, mbind, M_bind.
  destruct (heap w !! image) as [a|] eqn:Ha; cbn [snd]; [|reflexivity].
  split; [cbn [heap]; intros l Hl; rewrite lookup_insert_ne by congruence; reflexivity|].
  split; [cbn [heap]; rewrite lookup_insert_eq, Ha; reflexivity|].
  eexists. split; [reflexivity|]. repeat constructor.
Qed.

(** On every path, returning or raising, [visualize] only draws on the
    array it was given: every other array is untouched, no array is
    allocated, the image keeps its shape, and the only OpenCV calls are
    circles and lines on that image. *)
Theorem visualize_draws_only_on_image (image : loc) (list_persons : list Person.t)
    (keypoint_color : color) (keypoint_threshold instance_threshold : spec_float) :
  respects (draws_only_on image)
    (visualize image list_persons keypoint_color keypoint_threshold instance_threshold).
Proof.
  pose proof (draws_only_on_preorder image) as HR.
  unfold visualize.
  apply respects_bind; [assumption | | intros _; apply respects_ret; assumption].
  apply respects_for_each; [assumption|]. intros person. unfold draw_person.
  destruct (flt _ _); [apply respects_ret; assumption|].
  apply respects_bind; [assumption | | intros _].
  - apply respects_for_each; [assumption|]. intros i. unfold draw_landmark.
    apply respects_bind; [assumption | apply respects_lift; assumption | intros kp].
    destruct (fle _ _); [|apply respects_ret; assumption].
    apply cv2_circle_draws_only_on.
  - apply respects_bind;
      [assumption | apply respects_get_edge_colors; assumption | intros table].
    apply respects_for_each; [assumption|]. intros entry. unfold draw_edge.
    apply respects_bind; [assumption | apply respects_lift; assumption | intros k0].
    destruct (flt _ _); [|apply respects_ret; assumption].
    apply respects_bind; [assumption | apply respects_lift; assumption | intros k1].
    destruct (flt _ _); [|apply respects_ret; assumption].
    apply cv2_line_draws_only_on.
Qed.

End VisualizeMore.

(** ** Further runs on sample inputs *)

Section MoreSamples.

#[local] Existing Instance sample_cv2.


Lemma resizer_keeps_aspect_ratio_witness :
  let image := 1%positive in
  let target_size := 256 in
  let w := sample_world 364 273 in
  let a := sample_image 364 273 in
  exists r o resized_image dims w',
    keep_aspect_ratio_resizer (cv := sample_cv2) image target_size w = (Ok (o, dims), w')
    /\ heap w' !! r = Some resized_image
    /\ head (drop (length (trace w)) (trace w'))
       = Some (Resize image (cols resized_image, rows resized_image) r)
    /\ (if cols a <? rows a
        then rows resized_image = target_size
             /\ Z.abs (cols resized_image
                       - exact_ceil_div (cols a * target_size) (rows a)) <= 1
        else cols resized_image = target_size
             /\ Z.abs (rows resized_image
                       - exact_ceil_div (rows a * target_size) (cols a)) <= 1)
    /\ (rows a <> cols a ->
        Z.max (rows resized_image) (cols resized_image) = target_size)
    /\ target_size <= Z.max (rows resized_image) (cols resized_image)
       <= target_size + 1.
Proof.
  intros image target_size w a.
  apply (resizer_keeps_aspect_ratio (cv := sample_cv2) image target_size w a).
  - reflexivity.
  - unfold int_sized. simpl. lia.
  - unfold int_sized. simpl. lia.
  - unfold int_sized, target_size. lia.
Defined.

(** A square image can be resized one pixel past [target_size]: 11 x 11
    with [target_size = 100] is resized to 101 rows by 100 columns, since
    [11 * (100 / 11)] rounds to a float just above 100. *)
Lemma resizer_square_overshoot :
  scaled_side 11 100 11 = Ok 101
  /\ head (trace (snd (keep_aspect_ratio_resizer (cv := sample_cv2) 1%positive 100
                         (sample_world 11 11))))
     = Some (Resize 1%positive (100, 101) 2%positive).
Proof. split; vm_compute; reflexivity. Qed.

Lemma resizer_wide_image_dims_witness :
  let image := 1%positive in
  let target_size := 100 in
  let w := sample_world 100 100 in
  let a := sample_image 100 100 in
  exists scaled_height o target_height w',
    scaled_side (rows a) target_size (cols a) = Ok scaled_height
    /\ keep_aspect_ratio_resizer (cv := sample_cv2) image target_size w
       = (Ok (o, (target_height, target_size)), w')
    /\ smallest_multiple_of_32_ge scaled_height target_height.
Proof.
  intros image target_size w a.
  apply (resizer_wide_image_dims (cv := sample_cv2) image target_size w a).
  - reflexivity.
  - unfold int_sized. simpl. lia.
  - unfold int_sized. simpl. lia.
  - unfold int_sized, target_size. lia.
  - simpl. lia.
Defined.

Lemma resizer_dims_for_aligned_target_witness :
  let image := 1%positive in
  let target_size := 256 in
  let w := sample_world 364 273 in
  let a := sample_image 364 273 in
  exists o ao th tw w',
    keep_aspect_ratio_resizer (cv := sample_cv2) image target_size w
    = (Ok (o, (th, tw)), w')
    /\ heap w' !! o = Some ao
    /\ rows ao = th /\ cols ao = tw
    /\ multiple_of_32 th /\ multiple_of_32 tw.
Proof.
  intros image target_size w a.
  apply (resizer_dims_for_aligned_target (cv := sample_cv2) image target_size w a).
  - reflexivity.
  - unfold int_sized. simpl. lia.
  - unfold int_sized. simpl. lia.
  - unfold int_sized, target_size. lia.
  - exists 8. reflexivity.
Defined.

Lemma resizer_padding_below_32_witness :
  let image := 1%positive in
  let target_size := 100 in
  let w := sample_world 200 100 in
  let a := sample_image 200 100 in
  exists r o bottom right target_height target_width w',
    keep_aspect_ratio_resizer (cv := sample_cv2) image target_size w
    = (Ok (o, (target_height, target_width)), w')
    /\ last (trace w') = Some (CopyMakeBorder r 0 bottom 0 right o)
    /\ (if cols a <? rows a
        then bottom = 0 /\ 0 <= right < 32
        else right = 0 /\ 0 <= bottom < 32)
    /\ 32 <= Z.max target_height target_width
    /\ target_height <= target_size + 32 /\ target_width <= target_size + 32.
Proof.
  intros image target_size w a.
  apply (resizer_padding_below_32 (cv := sample_cv2) image target_size w a).
  - reflexivity.
  - unfold int_sized. simpl. lia.
  - unfold int_sized. simpl. lia.
  - unfold int_sized, target_size. lia.
Defined.

Lemma resizer_empty_image_divides_by_zero_witness :
  keep_aspect_ratio_resizer (cv := sample_cv2) 1%positive 256 (sample_world 0 0)
  = (Raise ZeroDivisionError, sample_world 0 0).
Proof.
  apply (resizer_empty_image_divides_by_zero (cv := sample_cv2) 1%positive 256
           (sample_world 0 0) (sample_image 0 0)); reflexivity.
Defined.

Lemma resizer_zero_side_rejected_witness :
  keep_aspect_ratio_resizer (cv := sample_cv2) 1%positive 256 (sample_world 0 200)
  = (Raise cv2_error, sample_world 0 200).
Proof.
  apply (resizer_zero_side_rejected (cv := sample_cv2) 1%positive 256
           (sample_world 0 200) (sample_image 0 200)).
  - reflexivity.
  - left. split; [reflexivity|]. unfold int_sized. simpl. lia.
  - unfold int_sized. lia.
Defined.

Lemma resizer_nonpositive_target_rejected_witness :
  keep_aspect_ratio_resizer (cv := sample_cv2) 1%positive (-256) (sample_world 100 200)
  = (Raise cv2_error, sample_world 100 200).
Proof.
  apply (resizer_nonpositive_target_rejected (cv := sample_cv2) 1%positive (-256)
           (sample_world 100 200) (sample_image 100 200)).
  - reflexivity.
  - unfold int_sized. simpl. lia.
  - unfold int_sized. simpl. lia.
  - lia.
Defined.

Lemma resizer_keeps_fitting_size_witness :
  let image := 1%positive in
  let target_size := 256 in
  let w := sample_world 256 180 in
  let a := sample_image 256 180 in
  exists r o w',
    keep_aspect_ratio_resizer (cv := sample_cv2) image target_size w
    = (Ok (o, if cols a <? rows a
              then (rows a, round_up_32 (cols a))
              else (round_up_32 (rows a), cols a)), w')
    /\ head (drop (length (trace w)) (trace w')) = Some (Resize image (cols a, rows a) r).
Proof.
  intros image target_size w a.
  apply (resizer_keeps_fitting_size (cv := sample_cv2) image target_size w a).
  - reflexivity.
  - unfold int_sized. simpl. lia.
  - unfold int_sized. simpl. lia.
  - reflexivity.
Defined.

Lemma visualize_returns_when_indexable_witness :
  let image := 1%positive in
  let list_persons :=
    [sample_short_person 16 default_keypoint_threshold default_instance_threshold] in
  let w := sample_world 100 200 in
  forallb (person_drawable default_keypoint_threshold default_instance_threshold)
    list_persons = true
  /\ visualize (cv := sample_cv2) image list_persons default_keypoint_color
       default_keypoint_threshold default_instance_threshold w
     = (Ok image,
        after_calls (cv := sample_cv2)
          (flat_map (visualize_calls image default_keypoint_color
                       default_keypoint_threshold default_instance_threshold)
             list_persons) w).
Proof.
  intros image list_persons w.
  assert (module_loaded w) as Hload by reflexivity.
  assert (bound image w) as Hbound by (exists (sample_image 100 200); reflexivity).
  assert (forallb (person_drawable default_keypoint_threshold default_instance_threshold)
            list_persons = true) as Hall by reflexivity.
  split; [exact Hall|].
  exact (visualize_returns_when_indexable (cv := sample_cv2) image list_persons
           default_keypoint_color default_keypoint_threshold default_instance_threshold
           w Hload Hbound Hall).
Defined.

Lemma visualize_index_error_midway_witness :
  let image := 1%positive in
  let before := [sample_person default_instance_threshold default_instance_threshold] in
  let person := sample_short_person 3 default_instance_threshold
                  default_instance_threshold in
  let w := sample_world 100 200 in
  exists lines,
    visualize (cv := sample_cv2) image (before ++ person :: []) default_keypoint_color
      default_keypoint_threshold default_instance_threshold w
    = (Raise IndexError,
       after_calls (cv := sample_cv2)
         (flat_map (visualize_calls image default_keypoint_color
                      default_keypoint_threshold default_instance_threshold) before
          ++ flat_map (landmark_calls image default_keypoint_color
                         default_keypoint_threshold) (Person.keypoints person)
          ++ lines) w).
Proof.
  intros image before person w.
  apply (visualize_index_error_midway (cv := sample_cv2) image before [] person
           default_keypoint_color default_keypoint_threshold default_instance_threshold w).
  - reflexivity.
  - exists (sample_image 100 200). reflexivity.
  - reflexivity.
  - reflexivity.
Defined.

End MoreSamples.
